(** * Alert ingestion, geofiltering and TTL cache of the weather dashboard

    A shallow embedding of the alert pipeline of [server.js]:
    [parsePolygon], [pointInPolygon], [parseAtom] and the handlers
    [app.get('/api/alerts')] and [app.get('/api/weather')], with the
    process-wide [cache] map they share.

    Conventions of the embedding.
    - A JS number is an IEEE-754 binary64 value: Rocq's primitive [float].
      Millisecond clock readings ([Date.now()]) are integers far below 2^53
      and are kept as [Z].
    - A JS string is a Rocq [string]: one character stands for one UTF-16
      code unit below 256 (the ISO 8859-1 range, which holds the alphabet
      of the NWS feeds); a text with a higher code unit is outside the
      embedding.  On this range white space ([\s], [trim], the white
      space [parseFloat] skips) and [toLowerCase] are exact, and so is
      case-insensitive matching against the patterns of the source, which
      are in ASCII; [toUpperCase] is exact but for the three letters whose
      upper-case form has no code unit below 256 (181, 223 and 255), left
      as they are.
    - [null] / [undefined] are [None].  A value of the query string is a
      string, an array or an object, as the query parser delivers them.
    - A regular expression is a term of [regex], run by a backtracking
      matcher with the priorities of the ECMAScript one (leftmost start,
      first alternative first, greedy or lazy repetition).
    - The handler threads the cache explicitly: it takes the cache and
      returns the response together with the cache it leaves behind. *)

From Stdlib Require Import ZArith List String Ascii Bool Lia Floats.
From stdpp Require Import gmap strings.
Import ListNotations.

Local Open Scope string_scope.
Local Open Scope Z_scope.

(* ===================================================================== *)
(** * Characters and string builtins *)
(* ===================================================================== *)

Module JS.

Definition code (a : ascii) : nat := nat_of_ascii a.

Definition in_range (lo hi : nat) (a : ascii) : bool :=
  (Nat.leb lo (code a)) && (Nat.leb (code a) hi).

Definition is_digit (a : ascii) : bool := in_range 48 57 a.
Definition is_upper (a : ascii) : bool := in_range 65 90 a.
Definition is_lower (a : ascii) : bool := in_range 97 122 a.

(** [\s] of a regular expression and the white space of [trim]: of the
    code units below 256 these are TAB, LF, VT, FF, CR, SPACE and the
    no-break space U+00A0. *)
Definition is_space (a : ascii) : bool :=
  in_range 9 13 a || Nat.eqb (code a) 32 || Nat.eqb (code a) 160.

(** The letters that have an upper-case partner below 256: [a] to [z],
    and U+00E0 to U+00FE but the division sign U+00F7. *)
Definition has_upper (a : ascii) : bool :=
  is_lower a || (in_range 224 254 a && negb (Nat.eqb (code a) 247)).

(** The letters that have a lower-case partner: [A] to [Z], and U+00C0
    to U+00DE but the multiplication sign U+00D7. *)
Definition has_lower (a : ascii) : bool :=
  is_upper a || (in_range 192 222 a && negb (Nat.eqb (code a) 215)).

Definition upper_char (a : ascii) : ascii :=
  if has_upper a then ascii_of_nat (code a - 32) else a.

Definition lower_char (a : ascii) : ascii :=
  if has_lower a then ascii_of_nat (code a + 32) else a.

Fixpoint map_chars (f : ascii -> ascii) (s : string) : string :=
  match s with
  | EmptyString => EmptyString
  | String a s' => String (f a) (map_chars f s')
  end.

Definition toUpperCase : string -> string := map_chars upper_char.
Definition toLowerCase : string -> string := map_chars lower_char.

Fixpoint trimStart (s : string) : string :=
  match s with
  | String a s' => if is_space a then trimStart s' else s
  | EmptyString => EmptyString
  end.

(** [trimEnd] keeps a character when it is not a space or when something
    that is kept follows it. *)
Fixpoint trimEnd (s : string) : string :=
  match s with
  | EmptyString => EmptyString
  | String a s' =>
      match trimEnd s' with
      | EmptyString => if is_space a then EmptyString else String a EmptyString
      | t => String a t
      end
  end.

Definition trim (s : string) : string := trimEnd (trimStart s).

Fixpoint startsWith (s p : string) : bool :=
  match p, s with
  | EmptyString, _ => true
  | String b p', String a s' => Ascii.eqb a b && startsWith s' p'
  | String _ _, EmptyString => false
  end.

Fixpoint includes (s p : string) : bool :=
  startsWith s p ||
  match s with
  | EmptyString => false
  | String _ s' => includes s' p
  end.

(** [s.slice(i)] and [s.slice(0, n)] for indices within [0, length]. *)
Fixpoint drop (n : nat) (s : string) : string :=
  match n, s with
  | O, _ => s
  | S n', String _ s' => drop n' s'
  | S _, EmptyString => EmptyString
  end.

Fixpoint take (n : nat) (s : string) : string :=
  match n, s with
  | S n', String a s' => String a (take n' s')
  | _, _ => EmptyString
  end.

(** [s.split(c)] for a one-character string separator: always at least
    one piece. *)
Fixpoint split_char (c : ascii) (s : string) : list string :=
  match s with
  | EmptyString => [EmptyString]
  | String a s' =>
      if Ascii.eqb a c then EmptyString :: split_char c s'
      else match split_char c s' with
           | p :: ps => String a p :: ps
           | [] => [String a EmptyString]
           end
  end.

(** [arr.join(sep)]. *)
Fixpoint join (sep : string) (l : list string) : string :=
  match l with
  | [] => EmptyString
  | [x] => x
  | x :: rest => x ++ sep ++ join sep rest
  end.

(** A value of [req.query]: a string, an array of values (a repeated
    or bracketed parameter) or an object (a parameter with named
    brackets). *)
Inductive qvalue : Type :=
| QString (s : string)
| QArray (l : list qvalue)
| QObject.

(** [String(v)]: an array prints its elements joined with commas, an
    object prints as [[object Object]]. *)
Fixpoint to_String (v : qvalue) : string :=
  match v with
  | QString s => s
  | QArray l => join "," (List.map to_String l)
  | QObject => "[object Object]"
  end.

(** Truthiness of a query value: only the empty string is falsy; an
    array is truthy even when it is empty. *)
Definition q_truthy (v : qvalue) : bool :=
  match v with
  | QString EmptyString => false
  | _ => true
  end.

(** [o || d] on a query value that may be [undefined]. *)
Definition q_or (o : option qvalue) (d : qvalue) : qvalue :=
  match o with
  | Some v => if q_truthy v then v else d
  | None => d
  end.

(** Truthiness of a string-or-null value: [null], [undefined] and the
    empty string are falsy. *)
Definition truthy (o : option string) : bool :=
  match o with
  | Some (String _ _) => true
  | _ => false
  end.

(** [o || d] on string-or-null values. *)
Definition or_else (o : option string) (d : string) : string :=
  match o with
  | Some (String a s) => String a s
  | _ => d
  end.

End JS.

(* ===================================================================== *)
(** * Numbers: decimal literals, [parseFloat], [toFixed] *)
(* ===================================================================== *)

Module Num.

Definition NaN : float := PrimFloat.nan.

(** The binary64 value nearest to [m * 10^e10] for [m >= 0], ties to even:
    the value of a decimal literal. *)
Definition round_div (num den : Z) : Z :=
  let q := num / den in
  let r := num mod den in
  if 2 * r <? den then q
  else if den <? 2 * r then q + 1
  else if Z.even q then q else q + 1.

Definition scaled (p q e2 : Z) : Z * Z :=
  if 0 <=? e2 then (p, q * 2 ^ e2) else (p * 2 ^ (- e2), q).

Definition of_decimal (m e10 : Z) : float :=
  if m <=? 0 then PrimFloat.zero
  else
    let p := if 0 <=? e10 then m * 10 ^ e10 else m in
    let q := if 0 <=? e10 then 1 else 10 ^ (- e10) in
    let l := Z.log2 p - Z.log2 q in
    let e0 := l - 52 in
    let '(n0, d0) := scaled p q e0 in
    let e1 := if n0 / d0 <? 2 ^ 52 then e0 - 1 else e0 in
    let e2 := Z.max e1 (-1074) in
    let '(n, d) := scaled p q e2 in
    let k := round_div n d in
    if 971 <? e2 then PrimFloat.infinity
    else Z.ldexp (PrimFloat.of_uint63 (Uint63.of_Z k)) e2.

Definition digit_val (a : ascii) : Z := Z.of_nat (JS.code a) - 48.

(** Reads the longest run of decimal digits: the value so far, the number
    of digits read and the rest of the input. *)
Fixpoint digits (s : string) (acc : Z) (n : Z) : Z * Z * string :=
  match s with
  | String a s' =>
      if JS.is_digit a then digits s' (10 * acc + digit_val a) (n + 1)
      else (acc, n, s)
  | EmptyString => (acc, n, s)
  end.

(** [ExponentPart]: [e] or [E], an optional sign and at least one digit;
    when it is not all there, nothing of it is consumed. *)
Definition exponent (s : string) : Z :=
  match s with
  | String a s1 =>
      if Ascii.eqb a "e" || Ascii.eqb a "E" then
        let '(neg, s2) :=
          match s1 with
          | String "-" r => (true, r)
          | String "+" r => (false, r)
          | _ => (false, s1)
          end in
        let '(v, n, _) := digits s2 0 0 in
        if n =? 0 then 0 else if neg then - v else v
      else 0
  | EmptyString => 0
  end.

(** The longest prefix that is a [StrUnsignedDecimalLiteral], as a number;
    [None] when there is none. *)
Definition unsigned_literal (s : string) : option float :=
  if JS.startsWith s "Infinity" then Some PrimFloat.infinity
  else
    let '(ip, ni, s1) := digits s 0 0 in
    match s1 with
    | String "." s2 =>
        let '(m, nf, s3) := digits s2 ip 0 in
        if (ni =? 0) && (nf =? 0) then None
        else Some (of_decimal m (exponent s3 - nf))
    | _ =>
        if ni =? 0 then None else Some (of_decimal ip (exponent s1))
    end.

(** [parseFloat(s)]: leading white space is skipped, then the longest
    prefix that is a signed decimal literal is read; [NaN] without one. *)
Definition parseFloat (s : string) : float :=
  match JS.trimStart s with
  | String "-" r =>
      match unsigned_literal r with
      | Some x => PrimFloat.opp x
      | None => NaN
      end
  | String "+" r =>
      match unsigned_literal r with Some x => x | None => NaN end
  | t => match unsigned_literal t with Some x => x | None => NaN end
  end.

(** [parseFloat(v)] of a value that may be [undefined]: the argument is
    converted with ToString first. *)
Definition parseFloat_opt (o : option string) : float :=
  match o with
  | Some s => parseFloat s
  | None => parseFloat "undefined"
  end.

(** [parseFloat(v)] of a query value that may be [undefined]. *)
Definition parseFloat_q (o : option JS.qvalue) : float :=
  match o with
  | Some v => parseFloat (JS.to_String v)
  | None => parseFloat "undefined"
  end.

(** [Number.isFinite]. *)
Definition isFinite (x : float) : bool :=
  negb (PrimFloat.is_nan x) && negb (PrimFloat.is_infinity x).

(** The value of a numeric literal of the source text. *)
Definition literal (s : string) : float := parseFloat s.

(** The decimal digits of a non-negative integer. *)
Fixpoint digits_fuel (fuel : nat) (n : Z) (acc : string) : string :=
  match fuel with
  | O => acc
  | S fuel' =>
      let acc' := String (ascii_of_nat (Z.to_nat (48 + n mod 10))) acc in
      if n <? 10 then acc' else digits_fuel fuel' (n / 10) acc'
  end.

Definition string_of_Z (n : Z) : string :=
  digits_fuel (S (Z.to_nat (Z.log2 n))) n EmptyString.

(** The exact value of a finite positive number as [mant * 2^e]. *)
Definition exact (x : float) : Z * Z :=
  match Prim2SF x with
  | S754_finite _ m e => (Z.pos m, e)
  | _ => (0, 0)
  end.

(** Number::toString for a finite [x >= 1e21], whose value is the integer
    [X]: the shortest digit string [s] (of [k] digits) with
    [s * 10^(n-k)] reading back as [x], the nearest to [X] when two do,
    printed in exponent form. *)
Fixpoint shortest (fuel : nat) (x : float) (X : Z) (N : Z) (k : Z) : Z * Z :=
  match fuel with
  | O => (X, 0)
  | S fuel' =>
      let unit := 10 ^ (N - k) in
      let lo := X / unit in
      let hi := lo + 1 in
      let ok_lo := PrimFloat.eqb (of_decimal lo (N - k)) x in
      let ok_hi := PrimFloat.eqb (of_decimal hi (N - k)) x in
      let pick :=
        if ok_lo && ok_hi then
          let dl := X - lo * unit in
          let dh := hi * unit - X in
          if dl <? dh then lo else if dh <? dl then hi
          else if Z.even lo then lo else hi
        else if ok_lo then lo else hi in
      if ok_lo || ok_hi then (pick, N - k)
      else shortest fuel' x X N (k + 1)
  end.

Fixpoint strip_zeros (fuel : nat) (s : Z) (e : Z) : Z * Z :=
  match fuel with
  | O => (s, e)
  | S fuel' =>
      if (0 <? s) && (s mod 10 =? 0) then strip_zeros fuel' (s / 10) (e + 1)
      else (s, e)
  end.

Definition toString_large (x : float) : string :=
  let '(m, e) := exact x in
  let X := m * 2 ^ e in
  let N := Z.of_nat (String.length (string_of_Z X)) in
  let '(s0, e0) := shortest 18 x X N 1 in
  let '(s, e10) := strip_zeros 400 s0 e0 in
  let ds := string_of_Z s in
  let n := Z.of_nat (String.length ds) + e10 in
  match ds with
  | String d EmptyString => String d ("e+" ++ string_of_Z (n - 1))
  | String d rest => String d ("." ++ rest ++ "e+" ++ string_of_Z (n - 1))
  | EmptyString => EmptyString
  end.

(** [x.toFixed(2)]. *)
Definition toFixed2 (x : float) : string :=
  if PrimFloat.is_nan x then "NaN"
  else if PrimFloat.is_infinity x then
    (if PrimFloat.ltb x PrimFloat.zero then "-Infinity" else "Infinity")
  else
    let neg := PrimFloat.ltb x PrimFloat.zero in
    let a := PrimFloat.abs x in
    let sign := if neg then "-" else "" in
    if PrimFloat.leb (literal "1e21") a then sign ++ toString_large a
    else
      let '(m, e) := exact a in
      let '(num, den) := scaled (m * 100) 1 (- e) in
      (* the integer n nearest to 100 * a, the larger one on a tie *)
      let n := (2 * num + den) / (2 * den) in
      let ds := string_of_Z n in
      let ds := if Nat.leb (String.length ds) 2
                then JS.drop (String.length ds) "000" ++ ds else ds in
      let k := String.length ds in
      sign ++ JS.take (k - 2) ds ++ "." ++ JS.drop (k - 2) ds.

End Num.

(* ===================================================================== *)
(** * Polygon geometry *)
(* ===================================================================== *)

(** A point is the two-element array [[lat, lon]]. *)
Definition point : Type := float * float.

(** [1e-12] *)
Definition epsilon : float := Eval vm_compute in Num.literal "1e-12".

(** [d || 1e-12]: a number is falsy when it is [0], [-0] or [NaN]. *)
Definition or_epsilon (d : float) : float :=
  if PrimFloat.eqb d PrimFloat.zero || PrimFloat.is_nan d then epsilon else d.

(** [a > b] on numbers. *)
Definition gt (a b : float) : bool := PrimFloat.ltb b a.

(** One turn of the loop of [pointInPolygon] for the edge from vertex
    [pj] (the previous one) to vertex [pi]. *)
Definition intersect (lat lon : float) (pi pj : point) : bool :=
  let xi := snd pi in let yi := fst pi in
  let xj := snd pj in let yj := fst pj in
  negb (Bool.eqb (gt yi lat) (gt yj lat)) &&
  PrimFloat.ltb lon
    (PrimFloat.add
       (PrimFloat.div (PrimFloat.mul (PrimFloat.sub xj xi) (PrimFloat.sub lat yi))
                      (or_epsilon (PrimFloat.sub yj yi)))
       xi).

(** The [for] loop: [j] starts at the last vertex and then trails [i]. *)
Fixpoint pip_loop (lat lon : float) (pj : point) (rest : list point)
    (inside : bool) : bool :=
  match rest with
  | [] => inside
  | pi :: rest' =>
      pip_loop lat lon pi rest'
        (if intersect lat lon pi pj then negb inside else inside)
  end.

(** [poly] is [None] for a value that is not an array. *)
Definition pointInPolygon (lat lon : float) (poly : option (list point)) : bool :=
  match poly with
  | None => false
  | Some l =>
      if Nat.ltb (length l) 3 then false
      else pip_loop lat lon (List.last l (PrimFloat.zero, PrimFloat.zero)) l false
  end.

(* ===================================================================== *)
(** * Regular expressions *)
(* ===================================================================== *)

Module Re.

Inductive regex : Type :=
| Eps                                   (* the empty pattern *)
| Chr (p : ascii -> bool)               (* one character of a class *)
| Cat (r1 r2 : regex)                   (* r1 r2 *)
| Alt (r1 r2 : regex)                   (* r1|r2, r1 tried first *)
| Star (greedy : bool) (r : regex)      (* r* and r*? *)
| Group (n : nat) (r : regex).          (* the n-th capturing group *)

(** The text captured by each group that took part in the match. *)
Definition caps : Type := list (nat * string).

Fixpoint cap (n : nat) (c : caps) : option string :=
  match c with
  | [] => None
  | (i, t) :: c' => if Nat.eqb i n then Some t else cap n c'
  end.

(** A continuation receives what is left of the input and the captures. *)
Definition cont : Type := string -> caps -> option (string * caps).

(** The loop of a repetition [r*] ([greedy]) or [r*?]: [step] matches
    [r] once.  An iteration that consumed nothing is given up, as the
    ECMAScript RepeatMatcher does, so the length of what is left bounds
    the number of turns. *)
Fixpoint star_loop (step : cont -> cont) (greedy : bool) (k : cont)
    (fuel : nat) (s : string) (c : caps) : option (string * caps) :=
  match fuel with
  | O => k s c
  | S fuel' =>
      let again :=
        step (fun s' c' =>
                if Nat.ltb (String.length s') (String.length s)
                then star_loop step greedy k fuel' s' c' else None) s c in
      if greedy then
        match again with Some x => Some x | None => k s c end
      else
        match k s c with Some x => Some x | None => again end
  end.

(** The backtracking matcher: [run r k s c] matches [r] at the head of
    [s] and hands what is left to [k]; when [k] fails the next way of
    matching [r] is tried. *)
Fixpoint run (r : regex) (k : cont) (s : string) (c : caps)
    : option (string * caps) :=
  match r with
  | Eps => k s c
  | Chr p =>
      match s with
      | String a s' => if p a then k s' c else None
      | EmptyString => None
      end
  | Cat r1 r2 => run r1 (run r2 k) s c
  | Alt r1 r2 =>
      match run r1 k s c with
      | Some x => Some x
      | None => run r2 k s c
      end
  | Star greedy r1 => star_loop (run r1) greedy k (S (String.length s)) s c
  | Group n r1 =>
      run r1 (fun s' c' =>
                k s' ((n, JS.take (String.length s - String.length s') s) :: c'))
          s c
  end.

Record rmatch : Type := {
  m_index : nat;        (* where the match starts *)
  m_text : string;      (* m[0] *)
  m_caps : caps;        (* m[1], ... *)
  m_rest : string       (* the input after the match *)
}.

(** The match that starts exactly at the head of [s]. *)
Definition exec_at (r : regex) (s : string) : option (string * caps * string) :=
  match run r (fun s' c' => Some (s', c')) s [] with
  | Some (rest, c) =>
      Some (JS.take (String.length s - String.length rest) s, c, rest)
  | None => None
  end.

(** The leftmost match: every start from the head of [s] to its end is
    tried in turn; [i] is the index of the head of [s]. *)
Fixpoint find_from (r : regex) (s : string) (i : nat) : option rmatch :=
  match exec_at r s with
  | Some (t, c, rest) =>
      Some {| m_index := i; m_text := t; m_caps := c; m_rest := rest |}
  | None =>
      match s with
      | String _ s' => find_from r s' (S i)
      | EmptyString => None
      end
  end.

(** [s.match(r)] without the [g] flag. *)
Definition find (r : regex) (s : string) : option rmatch := find_from r s 0.

(** [s.search(r)]: the index of the leftmost match, or -1. *)
Definition search (r : regex) (s : string) : Z :=
  match find r s with
  | Some m => Z.of_nat (m_index m)
  | None => -1
  end.

(** After a match the scan resumes where it ended, one character further
    when the match was empty. *)
Definition resume (m : rmatch) : option string :=
  match m_text m with
  | EmptyString =>
      match m_rest m with
      | String _ s' => Some s'
      | EmptyString => None
      end
  | String _ _ => Some (m_rest m)
  end.

Fixpoint matches_fuel (fuel : nat) (r : regex) (s : string) : list rmatch :=
  match fuel with
  | O => []
  | S fuel' =>
      match find r s with
      | None => []
      | Some m =>
          m :: match resume m with
               | Some s' => matches_fuel fuel' r s'
               | None => []
               end
      end
  end.

(** [[...s.matchAll(r)]] with the [g] flag: every successive match. *)
Definition matchAll (r : regex) (s : string) : list rmatch :=
  matches_fuel (S (String.length s)) r s.

(** [s.match(r) || []] with the [g] flag: the matched texts. *)
Definition match_g (r : regex) (s : string) : list string :=
  List.map m_text (matchAll r s).

(** Whether the pattern has an [n]-th capturing group. *)
Fixpoint has_group (n : nat) (r : regex) : bool :=
  match r with
  | Eps | Chr _ => false
  | Cat r1 r2 | Alt r1 r2 => has_group n r1 || has_group n r2
  | Star _ r1 => has_group n r1
  | Group i r1 => Nat.eqb i n || has_group n r1
  end.

(** The replacement text ['$1']: the first capture, and the two
    characters [$1] themselves when the pattern has no first group. *)
Definition dollar1 (r : regex) (c : caps) : string :=
  if has_group 1 r then
    match cap 1 c with Some t => t | None => EmptyString end
  else "$1".

Fixpoint replace_fuel (fuel : nat) (r : regex) (s : string) : string :=
  match fuel with
  | O => s
  | S fuel' =>
      match find r s with
      | None => s
      | Some m =>
          JS.take (m_index m) s ++ dollar1 r (m_caps m) ++
          match m_text m, m_rest m with
          | EmptyString, String a s' => String a (replace_fuel fuel' r s')
          | EmptyString, EmptyString => EmptyString
          | String _ _, rest => replace_fuel fuel' r rest
          end
      end
  end.

(** [s.replace(r, '$1')] with the [g] flag. *)
Definition replace_dollar1 (r : regex) (s : string) : string :=
  replace_fuel (S (String.length s)) r s.

(** [s.split(r)] for a pattern without groups.  [cur] is the input from
    the end of the last separator, [q] the offset of the probe in it; a
    separator is looked for at the probe only, and one that ends where
    [cur] starts does not count. *)
Fixpoint split_loop (fuel : nat) (r : regex) (cur : string) (q : nat)
    : list string :=
  match fuel with
  | O => [cur]
  | S fuel' =>
      match JS.drop q cur with
      | EmptyString => [cur]
      | String a probe' =>
          match exec_at r (String a probe') with
          | None => split_loop fuel' r cur (S q)
          | Some (_, _, rest) =>
              if Nat.eqb (String.length rest) (String.length cur)
              then split_loop fuel' r cur (S q)
              else JS.take q cur :: split_loop fuel' r rest 0
          end
      end
  end.

Definition split (r : regex) (s : string) : list string :=
  match s with
  | EmptyString =>
      match exec_at r EmptyString with
      | Some _ => []
      | None => [EmptyString]
      end
  | String _ _ => split_loop (S (2 * String.length s)) r s 0
  end.

(** ** Pattern combinators *)

Definition opt (r : regex) : regex := Alt r Eps.            (* r? *)
Definition plus (r : regex) : regex := Cat r (Star true r). (* r+ *)

(** A literal character, and the same under the [i] flag: two characters
    match when their upper-case forms agree. *)
Definition chr (a : ascii) : regex := Chr (Ascii.eqb a).
Definition chr_i (a : ascii) : regex :=
  Chr (fun b => Ascii.eqb (JS.upper_char b) (JS.upper_char a)).

Fixpoint lit (s : string) : regex :=
  match s with
  | EmptyString => Eps
  | String a EmptyString => chr a
  | String a s' => Cat (chr a) (lit s')
  end.

Fixpoint lit_i (s : string) : regex :=
  match s with
  | EmptyString => Eps
  | String a EmptyString => chr_i a
  | String a s' => Cat (chr_i a) (lit_i s')
  end.

Fixpoint seq (l : list regex) : regex :=
  match l with
  | [] => Eps
  | [r] => r
  | r :: l' => Cat r (seq l')
  end.

Definition any : regex := Chr (fun _ => true).              (* [\s\S] *)
Definition space : regex := Chr JS.is_space.                (* \s *)
Definition not_chr (a : ascii) : regex :=                   (* [^a] *)
  Chr (fun b => negb (Ascii.eqb b a)).
Definition word : regex :=                                  (* [a-zA-Z0-9_] *)
  Chr (fun b => JS.is_lower b || JS.is_upper b || JS.is_digit b ||
                Ascii.eqb b "_").
Definition one_of (s : string) : regex :=                   (* [...] *)
  Chr (fun b => JS.includes s (String b EmptyString)).

End Re.

(* ===================================================================== *)
(** * Polygon parsing *)
(* ===================================================================== *)

(** [arr.filter(Boolean)] on an array of pairs-or-null. *)
Fixpoint filter_Boolean {A : Type} (l : list (option A)) : list A :=
  match l with
  | [] => []
  | Some x :: l' => x :: filter_Boolean l'
  | None :: l' => filter_Boolean l'
  end.

(** The arrow function mapped over the tokens: [const [la, lo] = p.split(',')],
    both parsed with [parseFloat]; a missing [lo] is [undefined]. *)
Definition parsePoint (p : string) : option point :=
  let parts := JS.split_char "," p in
  let la := nth_error parts 0 in
  let lo := nth_error parts 1 in
  let lat := Num.parseFloat_opt la in
  let lon := Num.parseFloat_opt lo in
  if Num.isFinite lat && Num.isFinite lon then Some (lat, lon) else None.

(** [/\s+/] *)
Definition spaces_re : Re.regex := Re.plus Re.space.

Definition parsePolygon (str : option string) : option (list point) :=
  match str with
  | None | Some EmptyString => None
  | Some s =>
      let pts :=
        filter_Boolean (List.map parsePoint (Re.split spaces_re (JS.trim s))) in
      if Nat.leb 3 (length pts) then Some pts else None
  end.

(* ===================================================================== *)
(** * The Atom entry parser *)
(* ===================================================================== *)

Record AlertEntry : Type := {
  id : option string;
  title : option string;
  summary : option string;
  updated : option string;
  effective : option string;
  expires : option string;
  areaDesc : option string;
  severity : option string;
  event : option string;
  link : option string;
  ugc : list string;
  fips6 : list string;
  polygon : option (list point)
}.

Definition dquote : ascii := ascii_of_nat 34.

(** [(?:[a-zA-Z0-9_]+:)?] *)
Definition ns_prefix : Re.regex :=
  Re.opt (Re.Cat (Re.plus Re.word) (Re.chr ":")).

(** [/<entry[\s\S]*?<\/entry>/gi] *)
Definition entry_re : Re.regex :=
  Re.seq [Re.lit_i "<entry"; Re.Star false Re.any; Re.lit_i "</entry>"].

(** [new RegExp(`<(?:[a-zA-Z0-9_]+:)?${tag}[^>]*>([\\s\\S]*?)<\\/(?:[a-zA-Z0-9_]+:)?${tag}>`, 'i')]
    for a tag made of letters. *)
Definition tag_re (tag : string) : Re.regex :=
  Re.seq [Re.chr "<"; ns_prefix; Re.lit_i tag; Re.Star true (Re.not_chr ">");
          Re.chr ">"; Re.Group 1 (Re.Star false Re.any);
          Re.lit "</"; ns_prefix; Re.lit_i tag; Re.chr ">"].

(** The regular expression literal [/<!\\[CDATA\\[(.*?)\\]\\]>/g] of [get].
    In a literal, [\\] is an escaped backslash, so the pattern reads:
    [<!], a backslash, one character of the class [[CDATA\\[(.*?)\\]]
    (the letters C, D, A, T, a backslash and the characters [[(.*?)]),
    a backslash, []] and [>].  The parentheses are inside the class: the
    pattern has no capturing group. *)
Definition cdata_re : Re.regex :=
  Re.seq [Re.lit "<!"; Re.chr "\"; Re.one_of "CDATA\[(.*?)\"; Re.chr "\";
          Re.lit "]>"].

(** What the pattern would be with single backslashes,
    [/<!\[CDATA\[(.*?)\]\]>/g]; [.] is any character but a line end. *)
Definition cdata_re_single : Re.regex :=
  Re.seq [Re.lit "<![CDATA[";
          Re.Group 1 (Re.Star false
            (Re.Chr (fun b => negb (Nat.eqb (JS.code b) 10 || Nat.eqb (JS.code b) 13))));
          Re.lit "]]>"].

(** The closure [get] of [parseAtom], for the entry block [b]. *)
Definition get (b : string) (tag : string) : option string :=
  match Re.find (tag_re tag) b with
  | Some m =>
      let m1 := match Re.cap 1 (Re.m_caps m) with
                | Some t => t
                | None => EmptyString
                end in
      Some (JS.trim (Re.replace_dollar1 cdata_re m1))
  | None => None
  end.

(** [/<link[^>]+href=Q([^Q]+)Q/i], where Q stands for the double quote
    character. *)
Definition link_re : Re.regex :=
  Re.seq [Re.lit_i "<link"; Re.plus (Re.not_chr ">"); Re.lit_i "href=";
          Re.chr dquote; Re.Group 1 (Re.plus (Re.not_chr dquote));
          Re.chr dquote].

(** [/<(?:[a-zA-Z0-9_]+:)?geocode[\s\S]*?<\/(?:[a-zA-Z0-9_]+:)?geocode>/gi] *)
Definition geocode_re : Re.regex :=
  Re.seq [Re.chr "<"; ns_prefix; Re.lit_i "geocode"; Re.Star false Re.any;
          Re.lit "</"; ns_prefix; Re.lit_i "geocode"; Re.chr ">"].

(** [/<valueName>\s*NAME\s*<\/valueName>/i] for NAME = UGC, FIPS6. *)
Definition valueName_of_re (name : string) : Re.regex :=
  Re.seq [Re.lit_i "<valueName>"; Re.Star true Re.space; Re.lit_i name;
          Re.Star true Re.space; Re.lit_i "</valueName>"].

(** [/<valueName>/i] *)
Definition valueName_re : Re.regex := Re.lit_i "<valueName>".

(** [/<value>([\s\S]*?)<\/value>/gi] *)
Definition value_re : Re.regex :=
  Re.seq [Re.lit_i "<value>"; Re.Group 1 (Re.Star false Re.any);
          Re.lit_i "</value>"].

(** [/[\s,;]+/g] *)
Definition code_sep_re : Re.regex :=
  Re.plus (Re.Chr (fun b => JS.is_space b || Ascii.eqb b "," || Ascii.eqb b ";")).

(** The codes found in a segment: the content of each [<value>] element,
    split at [/[\s,;]+/]; [norm] is what is applied to each trimmed piece,
    and a piece that comes out empty is skipped. *)
Definition segment_codes (norm : string -> string) (seg : string)
    : list string :=
  let vals :=
    List.map (fun m => match Re.cap 1 (Re.m_caps m) with
                       | Some t => t
                       | None => EmptyString
                       end)
             (Re.matchAll value_re seg) in
  List.concat
    (List.map (fun v =>
                 List.filter (fun c => JS.truthy (Some c))
                   (List.map (fun code => norm (JS.trim code))
                             (Re.split code_sep_re v)))
              vals).

(** The body shared by the UGC and the FIPS6 branch of the loop over the
    geocode blocks: the codes that geocode [g] adds under value name
    [name]. *)
Definition geocode_values (name : string) (norm : string -> string)
    (g : string) : list string :=
  let idx := Re.search (valueName_of_re name) g in
  if 0 <=? idx then
    let after := JS.drop (Z.to_nat idx) g in
    let stop := Re.search valueName_re after in
    let seg := if 0 <? stop then JS.take (Z.to_nat stop) after else after in
    segment_codes norm seg
  else [].

(** [get('updated') || get('sent') || null] *)
Definition updated_of (b : string) : option string :=
  if JS.truthy (get b "updated") then get b "updated"
  else if JS.truthy (get b "sent") then get b "sent"
  else None.

(** One turn of the loop of [parseAtom] over the entry blocks. *)
Definition parseEntry (b : string) : AlertEntry :=
  let geocodes := Re.match_g geocode_re b in
  {| id := get b "id";
     title := get b "title";
     summary := get b "summary";
     updated := updated_of b;
     effective := get b "effective";
     expires := get b "expires";
     areaDesc := get b "areaDesc";
     severity := get b "severity";
     event := get b "event";
     link := match Re.find link_re b with
             | Some m => Re.cap 1 (Re.m_caps m)
             | None => None
             end;
     ugc := List.concat (List.map (geocode_values "UGC" JS.toUpperCase) geocodes);
     fips6 := List.concat (List.map (geocode_values "FIPS6" (fun c => c)) geocodes);
     polygon := parsePolygon (get b "polygon") |}.

Definition parseAtom (xml : string) : list AlertEntry :=
  List.map parseEntry (Re.match_g entry_re xml).

(* ===================================================================== *)
(** * The response cache *)
(* ===================================================================== *)

Record AlertDebug : Type := {
  fetched : nat;
  afterState : nat;
  afterPoly : nat;
  feeds : nat
}.

Record AlertResult : Type := {
  state : string;
  point_lat : float;
  point_lon : float;
  count : nat;
  items : list AlertEntry;
  fetchedAt : string;
  debug : AlertDebug
}.

(** What a handler hands to [res.json]: the alerts result, or the payload
    of a weather or air-quality provider, kept as its JSON text. *)
Inductive body : Type :=
| AlertsBody (r : AlertResult)
| ProviderBody (json : string).

(** The object [{ data, expiresAt }] stored under a key. *)
Record CacheEntry : Type := {
  data : body;
  expiresAt : Z
}.

(** [const cache = new Map()] *)
Abbreviation Cache := (gmap string CacheEntry).

Definition DEFAULT_TTL_MS : Z := 60 * 1000.
Definition AIR_TTL_MS : Z := 10 * 60 * 1000.
Definition ALERTS_TTL_MS : Z := 2 * 60 * 1000.

(** The read every handler does:
    [const entry = cache.get(key); if (entry && entry.expiresAt > now) return res.json(entry.data);]
    [Some d] is the hit that is served, [None] the miss. *)
Definition cache_get (cache : Cache) (key : string) (now : Z) : option body :=
  match cache !! key with
  | Some entry => if now <? expiresAt entry then Some (data entry) else None
  | None => None
  end.

(** The write every handler does:
    [cache.set(key, { data, expiresAt: now + ttl })]. *)
Definition cache_set (cache : Cache) (key : string) (d : body) (now ttl : Z)
    : Cache :=
  <[key := {| data := d; expiresAt := now + ttl |}]> cache.

Inductive response : Type :=
| Json (b : body)                 (* res.json(data) *)
| Error500 (message : string).    (* res.status(500).json({ error }) *)

(** [app.get('/api/weather')], from the cache key on: [key] is
    [cacheKey({ lat, lon, units })], [provider] what
    [getOpenMeteoWeather] resolves to, [None] when it throws. *)
Definition weather_handler (key : string) (now : Z) (provider : option string)
    (cache : Cache) : response * Cache :=
  match cache_get cache key now with
  | Some d => (Json d, cache)
  | None =>
      match provider with
      | Some json =>
          (Json (ProviderBody json),
           cache_set cache key (ProviderBody json) now DEFAULT_TTL_MS)
      | None => (Error500 "Failed to retrieve weather data", cache)
      end
  end.

(* ===================================================================== *)
(** * The alerts aggregator *)
(* ===================================================================== *)

Definition DEFAULT_lat : float := Eval vm_compute in Num.literal "33.7490".
Definition DEFAULT_lon : float := Eval vm_compute in Num.literal "-84.3880".

Definition ALERT_ATOM_URLS : list string :=
  ["https://api.weather.gov/alerts/active.atom?event=Tornado+Warning";
   "https://api.weather.gov/alerts/active.atom?event=Severe+Thunderstorm+Warning";
   "https://api.weather.gov/alerts/active.atom?event=Flash+Flood+Warning"].

(** [req.query]: each option a query value or [undefined]. *)
Record Query : Type := {
  q_state : option JS.qvalue;
  q_lat : option JS.qvalue;
  q_lon : option JS.qvalue;
  q_nocache : option JS.qvalue
}.

(** What the handler reads from the outside while it runs: the clock at
    [Date.now()], the text of [new Date().toISOString()], and for each
    URL the body that [fetch] delivers, [None] when the request fails or
    the status is not ok. *)
Record World : Type := {
  now : Z;
  isoNow : string;
  fetch : string -> option string
}.

(** [Promise.all(urls.map(...))]: every body in order, or the failure. *)
Fixpoint fetch_all (f : string -> option string) (urls : list string)
    : option (list string) :=
  match urls with
  | [] => Some []
  | u :: urls' =>
      match f u, fetch_all f urls' with
      | Some x, Some xs => Some (x :: xs)
      | _, _ => None
      end
  end.

(** The insertion-ordered [Map] [byId]. *)
Definition IdMap : Type := list (string * AlertEntry).

Definition has (m : IdMap) (k : string) : bool :=
  existsb (fun kv => String.eqb (fst kv) k) m.

(** [byId.set(k, v)]: a present key keeps its place, a new one goes last. *)
Fixpoint set (m : IdMap) (k : string) (v : AlertEntry) : IdMap :=
  match m with
  | [] => [(k, v)]
  | (k', v') :: m' =>
      if String.eqb k' k then (k', v) :: m' else (k', v') :: set m' k v
  end.

(** [Array.from(byId.values())] *)
Definition values (m : IdMap) : list AlertEntry := List.map snd m.

(** One turn of [for (const it of merged)]:
    [if (it?.id && !byId.has(it.id)) byId.set(it.id, it)]. *)
Definition dedupe_step (byId : IdMap) (it : AlertEntry) : IdMap :=
  match id it with
  | Some (String a k) =>
      if negb (has byId (String a k)) then set byId (String a k) it else byId
  | _ => byId
  end.

Definition dedupe (merged : list AlertEntry) : list AlertEntry :=
  values (fold_left dedupe_step merged []).

Definition fullName (st : string) : option string :=
  if String.eqb st "GA" then Some "GEORGIA"
  else if String.eqb st "AL" then Some "ALABAMA"
  else if String.eqb st "FL" then Some "FLORIDA"
  else if String.eqb st "SC" then Some "SOUTH CAROLINA"
  else if String.eqb st "NC" then Some "NORTH CAROLINA"
  else None.

(** The predicate of the state filter. *)
Definition state_match (st : string) (i : AlertEntry) : bool :=
  if existsb (fun code => JS.startsWith code st) (ugc i) then true
  else
    let hay := JS.toUpperCase
                 (JS.or_else (areaDesc i) "" ++ " " ++ JS.or_else (summary i) ""
                  ++ " " ++ JS.or_else (title i) "") in
    if JS.includes hay (" " ++ st) || JS.includes hay ("(" ++ st ++ ")")
       || JS.includes hay (st ++ "-") || JS.includes hay (st ++ ",")
    then true
    else match fullName st with
         | Some name => JS.includes hay name
         | None => false
         end.

(** The state step: the working list and [afterState] it leaves.
    [all] is [Array.from(byId.values())]. *)
Definition state_filter (st : string) (all : list AlertEntry)
    : list AlertEntry * nat :=
  if JS.truthy (Some st) && negb (String.eqb st "ALL") then
    let kept := List.filter (state_match st) all in
    if Nat.eqb (length kept) 0 then (all, length kept) else (kept, length kept)
  else (all, length all).

(** The predicate of the polygon filter:
    [Array.isArray(i.polygon) && pointInPolygon(lat, lon, i.polygon)]. *)
Definition poly_hit (lat lon : float) (i : AlertEntry) : bool :=
  match polygon i with
  | Some l => pointInPolygon lat lon (Some l)
  | None => false
  end.

(** The polygon step: the working list and [afterPoly] it leaves. *)
Definition poly_filter (lat lon : float) (work : list AlertEntry)
    : list AlertEntry * nat :=
  let polyHits := List.filter (poly_hit lat lon) work in
  if Nat.ltb 0 (length polyHits) then (polyHits, length polyHits)
  else (work, length polyHits).

(** [items.slice(0, 50)] *)
Definition cap50 (work : list AlertEntry) : list AlertEntry := firstn 50 work.

(** From the fetched documents to the response object. *)
Definition aggregate (st : string) (lat lon : float) (iso : string)
    (nfeeds : nat) (xmls : list string) : AlertResult :=
  let merged := List.concat (List.map parseAtom xmls) in
  let all := dedupe merged in
  let '(work1, nState) := state_filter st all in
  let '(work2, nPoly) := poly_filter lat lon work1 in
  let out := cap50 work2 in
  {| state := st;
     point_lat := lat;
     point_lon := lon;
     count := length out;
     items := out;
     fetchedAt := iso;
     debug := {| fetched := length all; afterState := nState;
                 afterPoly := nPoly; feeds := nfeeds |} |}.

(** [String(req.query.state || 'GA').toUpperCase()] *)
Definition req_state (q : Query) : string :=
  JS.toUpperCase (JS.to_String (JS.q_or (q_state q) (JS.QString "GA"))).

(** [Number.isFinite(qLat) ? qLat : DEFAULT_COORDS.lat] *)
Definition req_coord (o : option JS.qvalue) (dflt : float) : float :=
  let v := Num.parseFloat_q o in
  if Num.isFinite v then v else dflt.

(** The [nocache] flag of the request:
    [String(req.query.nocache || '').toLowerCase()] is ['1'] or ['true']. *)
Definition req_nocache (q : Query) : bool :=
  let v := JS.toLowerCase
             (JS.to_String (JS.q_or (q_nocache q) (JS.QString ""))) in
  String.eqb v "1" || String.eqb v "true".

(** The cache key of an alerts request,
    [`alerts:${state}:${lat.toFixed(2)},${lon.toFixed(2)}:${evKey}`]
    (another revision of the file joins the two coordinates with a colon;
    nothing below depends on the separator). *)
Definition alerts_key (st : string) (lat lon : float) : string :=
  "alerts:" ++ st ++ ":" ++ Num.toFixed2 lat ++ "," ++ Num.toFixed2 lon ++ ":"
  ++ JS.join "|" ALERT_ATOM_URLS.

(** [app.get('/api/alerts')]. *)
Definition alerts_handler (w : World) (q : Query) (cache : Cache)
    : response * Cache :=
  let st := req_state q in
  let lat := req_coord (q_lat q) DEFAULT_lat in
  let lon := req_coord (q_lon q) DEFAULT_lon in
  let nocache := req_nocache q in
  let key := alerts_key st lat lon in
  match (if nocache then None else cache_get cache key (now w)) with
  | Some d => (Json d, cache)
  | None =>
      match fetch_all (fetch w) ALERT_ATOM_URLS with
      | None => (Error500 "Failed to retrieve alerts", cache)
      | Some xmls =>
          let d := AlertsBody (aggregate st lat lon (isoNow w)
                                 (length ALERT_ATOM_URLS) xmls) in
          (Json d,
           if nocache then cache
           else cache_set cache key d (now w) ALERTS_TTL_MS)
      end
  end.


(* ===================================================================== *)
(** * Reference descriptions and sample data *)
(* ===================================================================== *)

(** Two entries carry the same [id] value. *)
Definition same_id (a b : AlertEntry) : bool := bool_decide (id a = id b).

(** First-occurrence deduplication as the design states it: walk the
    merged list once, keep an entry when its id is a non-empty string
    not seen before, and remember the id. *)
Fixpoint first_seen (seen : list string) (l : list AlertEntry)
    : list AlertEntry :=
  match l with
  | [] => []
  | it :: l' =>
      match id it with
      | Some (String a k) =>
          if existsb (fun k' => String.eqb k' (String a k)) seen
          then first_seen seen l'
          else it :: first_seen (seen ++ [String a k]) l'
      | _ => first_seen seen l'
      end
  end.

(** The id of [e], when it has one, is not among [seen]. *)
Definition unseen (seen : list string) (e : AlertEntry) : Prop :=
  forall k, id e = Some k -> existsb (fun k' => String.eqb k' k) seen = false.

(** The working list that reaches the cap: the deduplicated list after
    the state step and the polygon step. *)
Definition working (st : string) (lat lon : float) (xmls : list string)
    : list AlertEntry :=
  fst (poly_filter lat lon
         (fst (state_filter st (dedupe (List.concat (List.map parseAtom xmls)))))).

(** The cap on a result, and a cache all of whose alert results obey it. *)
Definition capped (r : AlertResult) : Prop :=
  (length (items r) <= 50)%nat /\ count r = length (items r).

Definition cache_capped (cache : Cache) : Prop :=
  forall k e r, cache !! k = Some e -> data e = AlertsBody r -> capped r.

(** An entry with nothing but an id and a title. *)
Definition bare (i t : string) : AlertEntry :=
  {| id := Some i; title := Some t; summary := None; updated := None;
     effective := None; expires := None; areaDesc := None; severity := None;
     event := None; link := None; ugc := []; fips6 := []; polygon := None |}.

(** An entry with nothing but an id, as [parseAtom] yields it for
    [<entry><id>i</id></entry>]. *)
Definition bare_id (i : string) : AlertEntry :=
  {| id := Some i; title := None; summary := None; updated := None;
     effective := None; expires := None; areaDesc := None; severity := None;
     event := None; link := None; ugc := []; fips6 := []; polygon := None |}.

(** Five entries that mention neither a state code nor a state name. *)
Definition five : list AlertEntry :=
  [bare "urn:1" "Tornado Warning"; bare "urn:2" "Flash Flood Warning";
   bare "urn:3" "Severe Thunderstorm Warning"; bare "urn:4" "Tornado Warning";
   bare "urn:5" "Flash Flood Warning"].

(** The square of the containment example, as [lat, lon] pairs. *)
Definition square : list point := [(0, 0); (0, 10); (10, 10); (10, 0)]%float.

(** An entry whose polygon is the square, and one without a polygon. *)
Definition in_square : AlertEntry :=
  {| id := Some "urn:sq"; title := Some "Tornado Warning"; summary := None;
     updated := None; effective := None; expires := None; areaDesc := None;
     severity := None; event := None; link := None; ugc := []; fips6 := [];
     polygon := Some square |}.

(** The no-break space, code unit 160. *)
Definition nbsp : ascii := ascii_of_nat 160.

(** A feed document of [n] entries with the ids [n], ..., [1]. *)
Fixpoint feed_entries (n : nat) : string :=
  match n with
  | O => EmptyString
  | S n' =>
      "<entry><id>" ++ Num.string_of_Z (Z.of_nat n) ++ "</id></entry>"
      ++ feed_entries n'
  end.

Definition feed_of (n : nat) : string :=
  "<feed>" ++ feed_entries n ++ "</feed>".

(** A feed document of 80 entries with different ids, the first of which
    carries the square as its polygon. *)
Definition feed_one_hit : string :=
  "<feed><entry><id>sq</id><polygon>0,0 0,10 10,10 10,0</polygon></entry>"
  ++ feed_entries 79 ++ "</feed>".

(** A world in which every feed answers with the same document. *)
Definition world_at (t : Z) (doc : string) : World :=
  {| now := t; isoNow := "2026-01-01T00:00:00.000Z"; fetch := fun _ => Some doc |}.

(** [/api/alerts?state=ALL&nocache=1] and [/api/alerts?state=ALL]. *)
Definition query_nocache : Query :=
  {| q_state := Some (JS.QString "ALL"); q_lat := None; q_lon := None;
     q_nocache := Some (JS.QString "1") |}.

Definition query_plain : Query :=
  {| q_state := Some (JS.QString "ALL"); q_lat := None; q_lon := None;
     q_nocache := None |}.

(** An entry block whose summary is wrapped in a CDATA section. *)
Definition cdata_entry : string :=
  "<entry><id>urn:1</id><summary><![CDATA[text]]></summary></entry>".

(** A geocode block with a UGC group followed by a FIPS6 group, the block
    of the decoding example, and entry blocks around them. *)
Definition geocode_two_groups : string :=
  "<geocode><valueName>UGC</valueName><value>GAZ001</value><valueName>FIPS6</valueName><value>013121</value></geocode>".

Definition geocode_example : string :=
  "<geocode><valueName>UGC</valueName><value>GAZ001</value><value>GAZ002 GAZ003</value></geocode>".

Definition entry_around (inner : string) : string :=
  "<entry><id>urn:1</id>" ++ inner ++ "</entry>".

(** The tokens of a text as the design states them: its maximal runs of
    characters that are not white space, in order. *)
Definition cons_head (a : ascii) (l : list string) : list string :=
  match l with
  | t :: ts => String a t :: ts
  | [] => [String a EmptyString]
  end.

Fixpoint tokens (s : string) : list string :=
  match s with
  | EmptyString => []
  | String a s' =>
      if JS.is_space a then tokens s'
      else match s' with
           | String b _ =>
               if JS.is_space b then String a EmptyString :: tokens s'
               else cons_head a (tokens s')
           | EmptyString => [String a EmptyString]
           end
  end.

(** [parsePolygon] as the design states it: the tokens that parse as two
    finite numbers, when there are at least three of them. *)
Definition parsePolygon_spec (s : string) : option (list point) :=
  let pts := filter_Boolean (List.map parsePoint (tokens s)) in
  if Nat.leb 3 (length pts) then Some pts else None.

Fixpoint all_nonspace (s : string) : bool :=
  match s with
  | EmptyString => true
  | String a s' => negb (JS.is_space a) && all_nonspace s'
  end.

Definition head_nonspace (s : string) : bool :=
  match s with
  | EmptyString => true
  | String a _ => negb (JS.is_space a)
  end.

Definition space_headed (s : string) : bool :=
  match s with
  | EmptyString => true
  | String a _ => JS.is_space a
  end.

(** The continuation that accepts whatever is left. *)
Definition accept : Re.cont := fun s c => Some (s, c).

(** The text has no occurrence of the character [a]. *)
Fixpoint free_of (a : ascii) (s : string) : bool :=
  match s with
  | EmptyString => true
  | String b s' => negb (Ascii.eqb a b) && free_of a s'
  end.

(** [s] starts with [p], letter case aside. *)
Fixpoint starts_i (s p : string) : bool :=
  match p, s with
  | EmptyString, _ => true
  | String a p', String b s' =>
      Ascii.eqb (JS.upper_char b) (JS.upper_char a) && starts_i s' p'
  | String _ _, EmptyString => false
  end.

(* ===================================================================== *)
(** * The other handlers and helpers of the server *)
(* ===================================================================== *)

(** [app.get('/api/air')], from the cache key on: [key] is
    [`air:${lat}:${lon}`], [provider] what [getAirQuality] resolves to,
    [None] when it throws. *)
Definition air_handler (key : string) (now : Z) (provider : option string)
    (cache : Cache) : response * Cache :=
  match cache_get cache key now with
  | Some d => (Json d, cache)
  | None =>
      match provider with
      | Some json =>
          (Json (ProviderBody json),
           cache_set cache key (ProviderBody json) now AIR_TTL_MS)
      | None => (Error500 "Failed to retrieve air quality", cache)
      end
  end.

Definition DEFAULT_UNITS : string := "us".

(** [resolveUnits(req)], on [req.query.units]. *)
Definition resolveUnits (units : option string) : string :=
  let u := JS.toLowerCase (JS.or_else units DEFAULT_UNITS) in
  if String.eqb u "imperial" then "us" else u.

(** The degree sign, code unit 176. *)
Definition degree : ascii := ascii_of_nat 176.

(** The object [{ temp, speed }] of [unitsFor]. *)
Record UnitLabels : Type := {
  temp : string;
  speed : string
}.

(** [unitsFor(units)] of the Open-Meteo provider. *)
Definition unitsFor (units : string) : UnitLabels :=
  if String.eqb units "us" || String.eqb units "imperial"
  then {| temp := String degree "F"; speed := "mph" |}
  else if String.eqb units "metric"
  then {| temp := String degree "C"; speed := "km/h" |}
  else {| temp := String degree "C"; speed := "km/h" |}.

(** The cache key that the alerts handler computes for a query. *)
Definition query_key (q : Query) : string :=
  alerts_key (req_state q) (req_coord (q_lat q) DEFAULT_lat)
             (req_coord (q_lon q) DEFAULT_lon).

(** The non-empty ids of a list of entries, in order. *)
Fixpoint keys_of (l : list AlertEntry) : list string :=
  match l with
  | [] => []
  | e :: l' =>
      match id e with
      | Some (String a k) => String a k :: keys_of l'
      | _ => keys_of l'
      end
  end.

(** [s] contains [p], letter case aside. *)
Fixpoint includes_i (s p : string) : bool :=
  starts_i s p ||
  match s with
  | EmptyString => false
  | String _ s' => includes_i s' p
  end.

(** Every character of the text satisfies [P]. *)
Fixpoint all_chars (P : ascii -> bool) (s : string) : bool :=
  match s with
  | EmptyString => true
  | String a s' => P a && all_chars P s'
  end.

(** The characters a printed number is made of: digits, sign, point,
    exponent mark and the letters of [NaN] and [Infinity]. *)
Definition number_char (a : ascii) : bool :=
  JS.is_digit a || JS.includes "+-.eNaInfinity" (String a EmptyString).

(** The scalar fields of an entry that [get] fills in. *)
Definition scalar_fields (e : AlertEntry) : list (option string) :=
  [id e; title e; summary e; updated e; effective e; expires e; areaDesc e;
   severity e; event e].

(** Sample data: a world whose second feed is down, and two queries
    whose coordinates agree to two decimals. *)
Definition world_second_down (t : Z) (doc : string) : World :=
  {| now := t; isoNow := "2026-01-01T00:00:00.000Z";
     fetch := fun u =>
       if String.eqb u "https://api.weather.gov/alerts/active.atom?event=Severe+Thunderstorm+Warning"
       then None else Some doc |}.

Definition world_down (t : Z) : World :=
  {| now := t; isoNow := "2026-01-01T00:00:00.000Z"; fetch := fun _ => None |}.

Definition query_at (st lat lon : string) : Query :=
  {| q_state := Some (JS.QString st); q_lat := Some (JS.QString lat);
     q_lon := Some (JS.QString lon); q_nocache := None |}.

(** The query [q] with its [state] option replaced. *)
Definition with_state (q : Query) (s : option JS.qvalue) : Query :=
  {| q_state := s; q_lat := q_lat q; q_lon := q_lon q;
     q_nocache := q_nocache q |}.

(** An entry block with a padded title and a geocode block of both
    groups. *)
Definition padded_entry : string :=
  "<entry><id> urn:9 </id><title>
  Flash Flood Warning </title><geocode><valueName>UGC</valueName><value>gaz001, gaz002;</value></geocode></entry>".

(* ===================================================================== *)
(** * The air-quality provider *)
(* ===================================================================== *)

(** The object [{ label, color }] of [aqiCategory]. *)
Record Category : Type := {
  label : string;
  color : string
}.

(** [aqiCategory(aqi)]; [None] is [null] or [undefined]. *)
Definition aqiCategory (aqi : option float) : Category :=
  match aqi with
  | None => {| label := "Unknown"; color := "#8a8f98" |}
  | Some a =>
      if PrimFloat.leb a 50 then {| label := "Good"; color := "#2ecc71" |}
      else if PrimFloat.leb a 100 then {| label := "Moderate"; color := "#f1c40f" |}
      else if PrimFloat.leb a 150 then {| label := "USG"; color := "#e67e22" |}
      else if PrimFloat.leb a 200 then {| label := "Unhealthy"; color := "#e74c3c" |}
      else if PrimFloat.leb a 300 then {| label := "Very Unhealthy"; color := "#8e44ad" |}
      else {| label := "Hazardous"; color := "#7f1d1d" |}
  end.

(** [h.us_aqi?.[idx] ?? null] of [getAirQuality], with [idx = 0]:
    [us_aqi] is [undefined] or an array of numbers and nulls. *)
Definition current_aqi (us_aqi : option (list (option float))) : option float :=
  match us_aqi with
  | Some (Some a :: _) => Some a
  | _ => None
  end.

(** The place of a category on the scale from Good (0) to Hazardous (5);
    Unknown is off the scale. *)
Definition level (c : Category) : option nat :=
  if String.eqb (label c) "Good" then Some 0%nat
  else if String.eqb (label c) "Moderate" then Some 1%nat
  else if String.eqb (label c) "USG" then Some 2%nat
  else if String.eqb (label c) "Unhealthy" then Some 3%nat
  else if String.eqb (label c) "Very Unhealthy" then Some 4%nat
  else if String.eqb (label c) "Hazardous" then Some 5%nat
  else None.

(* ===================================================================== *)
(** * Theorems *)
(* ===================================================================== *)

(** ** Lists *)

Lemma filter_sublist {A : Type} (p : A -> bool) (l : list A) :
  List.filter p l `sublist_of` l.
Proof.
  induction l as [| x l IH]; simpl.
  - constructor.
  - destruct (p x); [apply sublist_skip | apply sublist_cons]; exact IH.
Qed.

Lemma filter_nil_iff {A : Type} (p : A -> bool) (l : list A) :
  List.filter p l = [] <-> forall x, In x l -> p x = false.
Proof.
  induction l as [| x l IH]; simpl.
  - split; [intros _ y [] | reflexivity].
  - destruct (p x) eqn:Hx.
    + split; [discriminate |].
      intros H. specialize (H x (or_introl eq_refl)). congruence.
    + rewrite IH. split.
      * intros H y [<- | Hy]; [exact Hx | exact (H y Hy)].
      * intros H y Hy. apply H. right. exact Hy.
Qed.

Lemma has_keys (m : IdMap) (k : string) :
  has m k = existsb (fun k' => String.eqb k' k) (List.map fst m).
Proof.
  unfold has. induction m as [| [k' v] m IH]; simpl; [reflexivity |].
  rewrite IH. reflexivity.
Qed.

Lemma set_fresh (m : IdMap) (k : string) (v : AlertEntry) :
  has m k = false -> set m k v = (m ++ [(k, v)])%list.
Proof.
  unfold has. induction m as [| [k' v'] m IH]; simpl; [reflexivity |].
  intros H. apply orb_false_iff in H as [Hk Hm].
  rewrite Hk, (IH Hm). reflexivity.
Qed.

Lemma fold_dedupe (l : list AlertEntry) (acc : IdMap) :
  values (fold_left dedupe_step l acc) =
  (values acc ++ first_seen (List.map fst acc) l)%list.
Proof.
  revert acc. induction l as [| it l IH]; intros acc; simpl.
  - rewrite app_nil_r. reflexivity.
  - unfold dedupe_step at 2.
    destruct (id it) as [[| a k] |]; try apply IH.
    rewrite <- has_keys.
    destruct (has acc (String a k)) eqn:Hhas; simpl; [apply IH |].
    rewrite (set_fresh _ _ _ Hhas), IH.
    unfold values. rewrite !List.map_app. simpl.
    rewrite <- app_assoc. reflexivity.
Qed.

Lemma dedupe_first_seen (merged : list AlertEntry) :
  dedupe merged = first_seen [] merged.
Proof. unfold dedupe. rewrite fold_dedupe. reflexivity. Qed.

Lemma same_id_refl (e : AlertEntry) : same_id e e = true.
Proof. unfold same_id. apply bool_decide_eq_true. reflexivity. Qed.

Lemma same_id_false (e x : AlertEntry) : id e <> id x -> same_id e x = false.
Proof. unfold same_id. intros H. apply bool_decide_eq_false. exact H. Qed.

Lemma existsb_snoc (seen : list string) (k0 k : string) :
  existsb (fun k' => String.eqb k' k) (seen ++ [k0])%list =
  existsb (fun k' => String.eqb k' k) seen || String.eqb k0 k.
Proof. rewrite existsb_app. simpl. rewrite orb_false_r. reflexivity. Qed.

(** Whatever [first_seen] keeps has a non-empty id that was not seen
    before and is the first entry of the list with that id. *)
Lemma first_seen_kept (l : list AlertEntry) :
  forall seen e, In e (first_seen seen l) ->
    JS.truthy (id e) = true /\ unseen seen e /\
    List.find (same_id e) l = Some e.
Proof.
  induction l as [| x l IH]; intros seen e Hin; simpl in *; [contradiction |].
  destruct (id x) as [[| a k] |] eqn:Hx.
  - destruct (IH _ _ Hin) as (Ht & Hu & Hf). repeat split; try assumption.
    rewrite same_id_false; [exact Hf |].
    rewrite Hx. destruct (id e) as [[| ? ?] |]; simpl in Ht; congruence.
  - destruct (existsb _ seen) eqn:Hseen.
    + destruct (IH _ _ Hin) as (Ht & Hu & Hf). repeat split; try assumption.
      rewrite same_id_false; [exact Hf |].
      intros Heq. rewrite Hx in Heq. specialize (Hu _ Heq). congruence.
    + destruct Hin as [<- | Hin].
      * rewrite same_id_refl. repeat split.
        -- rewrite Hx. reflexivity.
        -- intros k0 Hk0. rewrite Hx in Hk0. injection Hk0 as <-. exact Hseen.
      * destruct (IH _ _ Hin) as (Ht & Hu & Hf).
        assert (Hne : id e <> id x).
        { intros Heq. rewrite Hx in Heq. specialize (Hu _ Heq).
          rewrite existsb_snoc, String.eqb_refl, orb_true_r in Hu.
          discriminate. }
        repeat split; try assumption.
        -- intros k0 Hk0. specialize (Hu _ Hk0).
           rewrite existsb_snoc in Hu. apply orb_false_iff in Hu. tauto.
        -- rewrite same_id_false by exact Hne. exact Hf.
  - destruct (IH _ _ Hin) as (Ht & Hu & Hf). repeat split; try assumption.
    rewrite same_id_false; [exact Hf |].
    rewrite Hx. destruct (id e) as [[| ? ?] |]; simpl in Ht; congruence.
Qed.

Lemma first_seen_NoDup (l : list AlertEntry) :
  forall seen, List.NoDup (List.map id (first_seen seen l)).
Proof.
  induction l as [| x l IH]; intros seen; simpl; [constructor |].
  destruct (id x) as [[| a k] |] eqn:Hx; try apply IH.
  destruct (existsb _ seen); [apply IH |].
  simpl. apply List.NoDup_cons; [| apply IH].
  intros Hin. apply List.in_map_iff in Hin as (e & He & Hin).
  destruct (first_seen_kept _ _ _ Hin) as (_ & Hu & _).
  rewrite Hx in He. specialize (Hu _ He).
  rewrite existsb_snoc, String.eqb_refl, orb_true_r in Hu. discriminate.
Qed.

Lemma first_seen_sublist (l : list AlertEntry) :
  forall seen, first_seen seen l `sublist_of` l.
Proof.
  induction l as [| x l IH]; intros seen; simpl; [constructor |].
  destruct (id x) as [[| a k] |]; try (apply sublist_cons, IH).
  destruct (existsb _ seen); [apply sublist_cons, IH | apply sublist_skip, IH].
Qed.

(** Every non-empty id of the list that was not seen before is the id of
    a kept entry. *)
Lemma first_seen_covers (l : list AlertEntry) :
  forall seen e, In e l -> JS.truthy (id e) = true -> unseen seen e ->
    exists e', In e' (first_seen seen l) /\ id e' = id e.
Proof.
  induction l as [| x l IH]; intros seen e Hin Ht Hu; simpl in *;
    [contradiction |].
  destruct Hin as [-> | Hin].
  - destruct (id e) as [[| a k] |] eqn:He; simpl in Ht; try discriminate.
    rewrite (Hu _ He). exists e. split; [left; reflexivity | exact He].
  - destruct (id x) as [[| a k] |] eqn:Hx; try (apply (IH _ _ Hin Ht Hu)).
    destruct (existsb _ seen) eqn:Hseen; [apply (IH _ _ Hin Ht Hu) |].
    destruct (decide (id e = id x)) as [Heq | Hne].
    + exists x. split; [left; reflexivity | congruence].
    + destruct (IH (seen ++ [String a k])%list e Hin Ht) as (e' & He' & Hid).
      * intros k0 Hk0. rewrite existsb_snoc, (Hu _ Hk0), orb_false_l.
        apply String.eqb_neq. intros Heq. subst k0. apply Hne. congruence.
      * exists e'. split; [right; exact He' | exact Hid].
Qed.

Lemma count_same_id_one (l : list AlertEntry) (e' e : AlertEntry) :
  List.NoDup (List.map id l) -> In e' l -> id e' = id e ->
  length (List.filter (same_id e) l) = 1%nat.
Proof.
  induction l as [| x l IH]; intros Hnd Hin Hid; [contradiction |].
  simpl in Hnd. apply List.NoDup_cons_iff in Hnd as [Hx Hnd]. simpl.
  destruct Hin as [-> | Hin].
  - unfold same_id at 1. rewrite bool_decide_eq_true_2 by congruence. simpl.
    f_equal. apply length_zero_iff_nil, filter_nil_iff.
    intros y Hy. apply same_id_false. intros Heq. apply Hx.
    apply List.in_map_iff. exists y. split; [congruence | exact Hy].
  - rewrite same_id_false; [apply (IH Hnd Hin Hid) |].
    intros Heq. apply Hx. apply List.in_map_iff. exists e'.
    split; [congruence | exact Hin].
Qed.

(** C6. Deduplication is the first-occurrence walk of the merged list:
    the kept entries are entries of the merged list, in its order, with
    pairwise different ids; each kept entry has a
    non-empty id and is the first entry of the merged list with that id
    (so the fields seen first are the ones retained); an entry without an
    id ([null], or the empty string, which is as falsy) is never kept; and
    every non-empty id that occurs in the merged list, however often, is
    the id of exactly one kept entry. *)
Theorem dedupe_first_occurrence (merged : list AlertEntry) :
  dedupe merged = first_seen [] merged /\
  dedupe merged `sublist_of` merged /\
  List.NoDup (List.map id (dedupe merged)) /\
  (forall e, In e (dedupe merged) ->
     JS.truthy (id e) = true /\ List.find (same_id e) merged = Some e) /\
  (forall e, In e merged -> JS.truthy (id e) = false ->
     List.filter (same_id e) (dedupe merged) = []) /\
  (forall e, In e merged -> JS.truthy (id e) = true ->
     length (List.filter (same_id e) (dedupe merged)) = 1%nat).
Proof.
  rewrite dedupe_first_seen. split; [reflexivity |].
  split; [apply first_seen_sublist |].
  split; [apply first_seen_NoDup |]. split; [| split].
  - intros e He. destruct (first_seen_kept _ _ _ He) as (Ht & _ & Hf). tauto.
  - intros e _ Hf. apply filter_nil_iff. intros x Hx.
    destruct (first_seen_kept _ _ _ Hx) as (Ht & _ & _).
    apply same_id_false. intros Heq. rewrite Heq in Hf. congruence.
  - intros e He Ht.
    destruct (first_seen_covers merged [] e He Ht) as (e' & He' & Hid).
    { intros k _. reflexivity. }
    apply (count_same_id_one _ e' e); [apply first_seen_NoDup | exact He' | exact Hid].
Qed.

Lemma dedupe_first_occurrence_witness :
  let merged := (parseAtom (feed_of 2) ++ parseAtom (feed_of 1))%list in
  In (bare_id "1") merged /\ 
  length (List.filter (same_id (bare_id "1")) (dedupe merged)) = 1%nat.
Proof.
  split.
  - vm_compute. right. left. reflexivity.
  - apply (proj2 (proj2 (proj2 (proj2 (proj2 (dedupe_first_occurrence _)))))).
    + vm_compute. right. left. reflexivity.
    + reflexivity.
Defined.

(** ** The state step, the polygon step and the cap *)

Lemma state_filter_cases (st : string) (all : list AlertEntry) :
  fst (state_filter st all) = all \/
  (fst (state_filter st all) = List.filter (state_match st) all /\
   List.filter (state_match st) all <> []).
Proof.
  unfold state_filter.
  destruct (JS.truthy (Some st) && negb (String.eqb st "ALL")); [| left; reflexivity].
  destruct (Nat.eqb (length (List.filter (state_match st) all)) 0) eqn:Hlen.
  - left. reflexivity.
  - right. split; [reflexivity |]. intros Hnil. rewrite Hnil in Hlen. discriminate.
Qed.

Lemma state_filter_nonempty (st : string) (all : list AlertEntry) :
  all <> [] -> fst (state_filter st all) <> [].
Proof.
  intros Hall. destruct (state_filter_cases st all) as [-> | [-> Hne]]; assumption.
Qed.

Lemma state_filter_sublist (st : string) (all : list AlertEntry) :
  fst (state_filter st all) `sublist_of` all.
Proof.
  destruct (state_filter_cases st all) as [-> | [-> _]];
    [reflexivity | apply filter_sublist].
Qed.

Lemma poly_filter_cases (lat lon : float) (work : list AlertEntry) :
  (List.filter (poly_hit lat lon) work = [] /\
   fst (poly_filter lat lon work) = work) \/
  (List.filter (poly_hit lat lon) work <> [] /\
   fst (poly_filter lat lon work) = List.filter (poly_hit lat lon) work).
Proof.
  unfold poly_filter.
  destruct (List.filter (poly_hit lat lon) work) as [| h hits]; simpl.
  - left. split; reflexivity.
  - right. split; [discriminate | reflexivity].
Qed.

Lemma poly_filter_nonempty (lat lon : float) (work : list AlertEntry) :
  work <> [] -> fst (poly_filter lat lon work) <> [].
Proof.
  intros Hw. destruct (poly_filter_cases lat lon work) as [[_ ->] | [Hne ->]];
    assumption.
Qed.

Lemma poly_filter_sublist (lat lon : float) (work : list AlertEntry) :
  fst (poly_filter lat lon work) `sublist_of` work.
Proof.
  destruct (poly_filter_cases lat lon work) as [[_ ->] | [_ ->]];
    [reflexivity | apply filter_sublist].
Qed.

Lemma aggregate_items st lat lon iso n xmls :
  items (aggregate st lat lon iso n xmls) = cap50 (working st lat lon xmls) /\
  count (aggregate st lat lon iso n xmls) =
    length (items (aggregate st lat lon iso n xmls)).
Proof.
  unfold aggregate, working.
  destruct (state_filter st _) as [work1 nState]; simpl.
  destruct (poly_filter lat lon work1) as [work2 nPoly]; simpl.
  split; reflexivity.
Qed.

Lemma working_sublist st lat lon xmls :
  working st lat lon xmls `sublist_of`
    dedupe (List.concat (List.map parseAtom xmls)).
Proof.
  unfold working. etransitivity;
    [apply poly_filter_sublist | apply state_filter_sublist].
Qed.

Lemma cap50_nonempty (work : list AlertEntry) : work <> [] -> cap50 work <> [].
Proof. destruct work; [congruence | discriminate]. Qed.

(** C1. For a requested state other than [ALL]: when the state filter
    keeps no entry, the working list after the state step is the full
    deduplicated list, and when it keeps some, the working list is what
    it keeps; so the step never empties a non-empty list, five entries
    none of which matches the state come out as the same five entries,
    and the response of the aggregator has at least one item whenever the
    deduplicated list has one. *)
Theorem state_filter_fallback (st : string) (all : list AlertEntry) :
  st <> "ALL" ->
  (List.filter (state_match st) all = [] -> fst (state_filter st all) = all) /\
  (st <> "" -> List.filter (state_match st) all <> [] ->
     fst (state_filter st all) = List.filter (state_match st) all) /\
  (all <> [] -> fst (state_filter st all) <> []) /\
  (length all = 5%nat -> (forall i, In i all -> state_match st i = false) ->
     fst (state_filter st all) = all /\
     length (fst (state_filter st all)) = 5%nat) /\
  (forall lat lon iso n xmls,
     dedupe (List.concat (List.map parseAtom xmls)) = all -> all <> [] ->
     items (aggregate st lat lon iso n xmls) <> []).
Proof.
  intros Hall.
  assert (Hfall : List.filter (state_match st) all = [] ->
                  fst (state_filter st all) = all).
  { intros Hnil.
    destruct (state_filter_cases st all) as [H | [_ Hne]]; [exact H | congruence]. }
  split; [exact Hfall |]. split.
  { intros Hst Hkept. unfold state_filter.
    apply String.eqb_neq in Hall. rewrite Hall.
    destruct st as [| a st']; [congruence |]. cbn [JS.truthy negb andb].
    destruct (Nat.eqb_spec (length (List.filter (state_match (String a st')) all)) 0)
      as [Hz | _]; [| reflexivity].
    apply length_zero_iff_nil in Hz. congruence. }
  split; [apply state_filter_nonempty |]. split.
  - intros Hlen Hnone. apply filter_nil_iff in Hnone.
    rewrite (Hfall Hnone). split; [reflexivity | exact Hlen].
  - intros lat lon iso n xmls Hded Hne.
    rewrite (proj1 (aggregate_items st lat lon iso n xmls)).
    apply cap50_nonempty. unfold working. rewrite Hded.
    apply poly_filter_nonempty, state_filter_nonempty, Hne.
Qed.

Lemma state_filter_fallback_witness :
  fst (state_filter "TX" five) = five /\
  length (fst (state_filter "TX" five)) = 5%nat.
Proof.
  apply (proj1 (proj2 (proj2 (proj2
           (state_filter_fallback "TX" five ltac:(discriminate)))))).
  - reflexivity.
  - intros i Hi. simpl in Hi.
    repeat (destruct Hi as [<- | Hi]; [vm_compute; reflexivity |]).
    contradiction.
Defined.

(** C2. Let S be the entries of the working list whose polygon is present
    and contains the query point; such a polygon has at least 3 points.
    When S is not empty the polygon step leaves S, when S is empty it
    leaves the working list as it was; [afterPoly] is the size of S
    either way. *)
Theorem poly_filter_prefers_hits (lat lon : float) (work : list AlertEntry) :
  (forall i, In i (List.filter (poly_hit lat lon) work) <->
     In i work /\
     exists l, polygon i = Some l /\ (3 <= length l)%nat /\
               pointInPolygon lat lon (Some l) = true) /\
  (List.filter (poly_hit lat lon) work <> [] ->
     fst (poly_filter lat lon work) = List.filter (poly_hit lat lon) work) /\
  (List.filter (poly_hit lat lon) work = [] ->
     fst (poly_filter lat lon work) = work) /\
  snd (poly_filter lat lon work) = length (List.filter (poly_hit lat lon) work).
Proof.
  split; [| split; [| split]].
  - intros i. rewrite List.filter_In. unfold poly_hit. split.
    + intros [Hin Hhit]. split; [exact Hin |].
      destruct (polygon i) as [l |]; [| discriminate].
      exists l. split; [reflexivity |]. split; [| exact Hhit].
      unfold pointInPolygon in Hhit.
      destruct (Nat.ltb_spec (length l) 3); [discriminate | lia].
    + intros [Hin (l & -> & _ & Hhit)]. split; assumption.
  - intros Hne. destruct (poly_filter_cases lat lon work) as [[Hnil _] | [_ H]];
      [congruence | exact H].
  - intros Hnil. destruct (poly_filter_cases lat lon work) as [[_ H] | [Hne _]];
      [exact H | congruence].
  - unfold poly_filter.
    destruct (Nat.ltb 0 (length (List.filter (poly_hit lat lon) work)));
      reflexivity.
Qed.

Lemma poly_filter_prefers_hits_witness :
  fst (poly_filter 5 5 [bare_id "1"; in_square; bare_id "2"]) = [in_square] /\
  fst (poly_filter 20 20 [bare_id "1"; in_square; bare_id "2"]) =
    [bare_id "1"; in_square; bare_id "2"].
Proof.
  split.
  - rewrite (proj1 (proj2 (poly_filter_prefers_hits 5 5 _))).
    + vm_compute. reflexivity.
    + vm_compute. discriminate.
  - apply (proj1 (proj2 (proj2 (poly_filter_prefers_hits 20 20 _)))).
    vm_compute. reflexivity.
Defined.

Lemma aggregate_capped st lat lon iso n xmls :
  capped (aggregate st lat lon iso n xmls).
Proof.
  destruct (aggregate_items st lat lon iso n xmls) as [Hitems Hcount].
  split; [| exact Hcount].
  rewrite Hitems. unfold cap50. rewrite length_firstn. lia.
Qed.

Lemma cache_get_Some (cache : Cache) (key : string) (t : Z) (d : body) :
  cache_get cache key t = Some d ->
  exists e, cache !! key = Some e /\ data e = d.
Proof.
  unfold cache_get. destruct (cache !! key) as [e |]; [| discriminate].
  destruct (t <? expiresAt e); [| discriminate].
  intros H. injection H as <-. exists e. split; reflexivity.
Qed.

Lemma cache_set_capped (cache : Cache) (key : string) (r : AlertResult)
    (t ttl : Z) :
  cache_capped cache -> capped r ->
  cache_capped (cache_set cache key (AlertsBody r) t ttl).
Proof.
  intros Hc Hr k e r' Hk He. unfold cache_set in Hk.
  apply lookup_insert_Some in Hk as [[_ <-] | [_ Hk]].
  - simpl in He. injection He as <-. exact Hr.
  - exact (Hc _ _ _ Hk He).
Qed.

(** The handler keeps the cap, for what it serves (fresh or from the
    cache) and for what it leaves in the cache. *)
Lemma alerts_handler_capped (w : World) (q : Query) (cache : Cache) :
  cache_capped cache ->
  cache_capped (snd (alerts_handler w q cache)) /\
  forall r, fst (alerts_handler w q cache) = Json (AlertsBody r) -> capped r.
Proof.
  intros Hc. unfold alerts_handler.
  set (st := req_state q). set (lat := req_coord (q_lat q) DEFAULT_lat).
  set (lon := req_coord (q_lon q) DEFAULT_lon).
  destruct (req_nocache q).
  - destruct (fetch_all (fetch w) ALERT_ATOM_URLS) as [xmls |]; simpl.
    + split; [exact Hc |]. intros r H. injection H as <-.
      apply aggregate_capped.
    + split; [exact Hc | discriminate].
  - destruct (cache_get cache (alerts_key st lat lon) (now w)) as [d |] eqn:Hget.
    + simpl. split; [exact Hc |]. intros r H. injection H as ->.
      apply cache_get_Some in Hget as (e & He & Hd). exact (Hc _ _ _ He Hd).
    + destruct (fetch_all (fetch w) ALERT_ATOM_URLS) as [xmls |]; simpl.
      * split.
        -- apply cache_set_capped; [exact Hc | apply aggregate_capped].
        -- intros r H. injection H as <-. apply aggregate_capped.
      * split; [exact Hc | discriminate].
Qed.

(** C7, as the code has it. In every result the aggregator emits,
    [items] is the first 50 entries of the final working list, which is
    the deduplicated list after the state step and the polygon step: the
    deduplicated list with entries removed and none moved; [items] has at most 50
    entries, exactly [min 50] of the length of the working list, and
    [count] is its length.  When 80 entries reach the cap, [items] has 50
    entries and [count] is 50.  A response served from the cache obeys
    the cap as well, as long as the cache holds results of the handler
    only: the handler keeps that property of the cache. *)
Theorem aggregate_cap st lat lon iso n xmls :
  let r := aggregate st lat lon iso n xmls in
  let work := working st lat lon xmls in
  items r = firstn 50 work /\
  work `sublist_of` dedupe (List.concat (List.map parseAtom xmls)) /\
  (length (items r) <= 50)%nat /\
  length (items r) = Nat.min 50 (length work) /\
  count r = length (items r) /\
  (length work = 80%nat -> length (items r) = 50%nat /\ count r = 50%nat) /\
  (forall w q cache, cache_capped cache ->
     cache_capped (snd (alerts_handler w q cache)) /\
     forall r', fst (alerts_handler w q cache) = Json (AlertsBody r') ->
       capped r').
Proof.
  intros r work.
  destruct (aggregate_items st lat lon iso n xmls) as [Hitems Hcount].
  fold r in Hitems, Hcount. fold work in Hitems. unfold cap50 in Hitems.
  assert (Hlen : length (items r) = Nat.min 50 (length work)).
  { rewrite Hitems. apply length_firstn. }
  split; [exact Hitems |]. split; [apply working_sublist |].
  split; [lia |]. split; [exact Hlen |]. split; [exact Hcount |].
  split; [| intros w q cache; apply alerts_handler_capped].
  intros H80. rewrite Hcount, Hlen, H80. split; reflexivity.
Qed.

Lemma aggregate_cap_witness :
  length (working "ALL" 5 5 [feed_of 80]) = 80%nat /\
  length (items (aggregate "ALL" 5 5 "2026-01-01T00:00:00.000Z" 1 [feed_of 80]))
    = 50%nat /\
  count (aggregate "ALL" 5 5 "2026-01-01T00:00:00.000Z" 1 [feed_of 80]) = 50%nat.
Proof.
  assert (H80 : length (working "ALL" 5 5 [feed_of 80]) = 80%nat)
    by (vm_compute; reflexivity).
  split; [exact H80 |].
  apply (proj1 (proj2 (proj2 (proj2 (proj2 (proj2
           (aggregate_cap "ALL" 5 5 "2026-01-01T00:00:00.000Z" 1 [feed_of 80]))))))).
  exact H80.
Defined.

(** C7 as stated fails for 80 deduplicated entries that do not all reach
    the cap: with 80 deduplicated entries of which one has a polygon
    around the query point, the polygon step leaves that one entry, and
    the result has 1 item and [count] 1, not 50. *)
Lemma eighty_deduplicated_one_item :
  length (dedupe (List.concat (List.map parseAtom [feed_one_hit]))) = 80%nat /\
  length (items (aggregate "ALL" 5 5 "2026-01-01T00:00:00.000Z" 1
                   [feed_one_hit])) = 1%nat /\
  count (aggregate "ALL" 5 5 "2026-01-01T00:00:00.000Z" 1 [feed_one_hit])
    = 1%nat.
Proof. repeat split; vm_compute; reflexivity. Qed.

(** ** The cache *)

Lemma cache_get_set_same (cache : Cache) (key : string) (v : body)
    (t ttl now : Z) :
  cache_get (cache_set cache key v t ttl) key now =
  if now <? t + ttl then Some v else None.
Proof.
  unfold cache_get, cache_set. rewrite lookup_insert_eq. reflexivity.
Qed.

(** C8, as the code has it. A read is a miss exactly when the key is
    absent or the clock has reached the entry's [expiresAt]
    ([now >= expiresAt]: the instant [now = expiresAt] is already a
    miss); otherwise it returns the stored value.  So a [set] with a
    positive TTL followed by a read at the same instant returns the value,
    and a read once the TTL has elapsed is a miss.  The weather handler
    serves a hit as it is and leaves the cache alone; on a miss it
    fetches and stores the fresh payload for [DEFAULT_TTL_MS]. *)
Theorem cache_get_miss_iff (cache : Cache) (key : string) (now : Z) :
  (cache_get cache key now = None <->
     cache !! key = None \/
     exists e, cache !! key = Some e /\ expiresAt e <= now) /\
  (forall e, cache !! key = Some e -> now < expiresAt e ->
     cache_get cache key now = Some (data e)) /\
  (forall v ttl, 0 < ttl ->
     cache_get (cache_set cache key v now ttl) key now = Some v) /\
  (forall v t0 ttl, t0 + ttl <= now ->
     cache_get (cache_set cache key v t0 ttl) key now = None) /\
  (forall provider d, cache_get cache key now = Some d ->
     weather_handler key now provider cache = (Json d, cache)) /\
  (forall json, cache_get cache key now = None ->
     weather_handler key now (Some json) cache =
     (Json (ProviderBody json),
      cache_set cache key (ProviderBody json) now DEFAULT_TTL_MS)).
Proof.
  split; [| split; [| split; [| split; [| split]]]];
    [| | | | intros provider d Hhit; unfold weather_handler; rewrite Hhit; reflexivity
     | intros json Hmiss; unfold weather_handler; rewrite Hmiss; reflexivity].
  - unfold cache_get. destruct (cache !! key) as [e |].
    + destruct (Z.ltb_spec now (expiresAt e)) as [Hlt | Hge].
      * split; [discriminate |].
        intros [Habs | (e' & He' & Hle)]; [discriminate |].
        injection He' as <-. lia.
      * split; [| reflexivity]. intros _. right. exists e. split; [reflexivity | lia].
    + split; [intros _; left; reflexivity | reflexivity].
  - intros e He Hlt. unfold cache_get. rewrite He.
    destruct (Z.ltb_spec now (expiresAt e)); [reflexivity | lia].
  - intros v ttl Hpos. rewrite cache_get_set_same.
    destruct (Z.ltb_spec now (now + ttl)); [reflexivity | lia].
  - intros v t0 ttl Hle. rewrite cache_get_set_same.
    destruct (Z.ltb_spec now (t0 + ttl)); [lia | reflexivity].
Qed.

Lemma cache_get_miss_iff_witness :
  cache_get (cache_set ∅ "k" (ProviderBody "v") 5 1000) "k" 5
    = Some (ProviderBody "v") /\
  cache_get (cache_set ∅ "k" (ProviderBody "v") 5 1000) "k" 1006 = None.
Proof.
  split.
  - apply (proj1 (proj2 (proj2 (cache_get_miss_iff ∅ "k" 5)))). lia.
  - apply (proj1 (proj2 (proj2 (proj2 (cache_get_miss_iff ∅ "k" 1006))))). lia.
Defined.

(** C8 as stated fails at the instant of expiry: after [set(k, v, 1000)]
    at time 0 the key is present and [now = 1000] is not greater than
    [expiresAt = 1000], yet the read at 1000 is a miss. *)
Lemma cache_get_miss_at_expiry :
  exists e,
    cache_set ∅ "k" (ProviderBody "v") 0 1000 !! "k" = Some e /\
    ~ (1000 > expiresAt e) /\
    cache_get (cache_set ∅ "k" (ProviderBody "v") 0 1000) "k" 1000 = None.
Proof.
  eexists. split; [apply lookup_insert_eq |]. split.
  - simpl. lia.
  - rewrite cache_get_set_same. reflexivity.
Qed.

(** C3, as the code has it. With the nocache flag set the handler neither
    reads nor writes the cache: the response is the one an empty cache
    would give and the cache is left as it was.  Without the flag, a
    request that misses and fetches with success stores its result, and
    every request for the same query before [now + ALERTS_TTL_MS] is
    answered with that stored result and leaves the cache alone. *)
Theorem nocache_skips_read_and_write (w : World) (q : Query) (cache : Cache) :
  (req_nocache q = true ->
     snd (alerts_handler w q cache) = cache /\
     fst (alerts_handler w q cache) = fst (alerts_handler w q ∅)) /\
  (req_nocache q = false ->
     cache_get cache
       (alerts_key (req_state q) (req_coord (q_lat q) DEFAULT_lat)
                   (req_coord (q_lon q) DEFAULT_lon)) (now w) = None ->
     fetch_all (fetch w) ALERT_ATOM_URLS <> None ->
     forall w', now w <= now w' < now w + ALERTS_TTL_MS ->
       alerts_handler w' q (snd (alerts_handler w q cache)) =
       alerts_handler w q cache).
Proof.
  split.
  - intros Hnc. unfold alerts_handler. rewrite Hnc.
    destruct (fetch_all (fetch w) ALERT_ATOM_URLS); split; reflexivity.
  - intros Hnc Hmiss Hfetch w' Hw'. unfold alerts_handler. rewrite Hnc, Hmiss.
    destruct (fetch_all (fetch w) ALERT_ATOM_URLS) as [xmls |]; [| congruence].
    cbn [snd fst]. rewrite cache_get_set_same.
    destruct (Z.ltb_spec (now w') (now w + ALERTS_TTL_MS)); [reflexivity | lia].
Qed.

Lemma nocache_skips_read_and_write_witness :
  snd (alerts_handler (world_at 0 (feed_of 1)) query_nocache ∅) = ∅ /\
  alerts_handler (world_at 60000 (feed_of 2)) query_plain
    (snd (alerts_handler (world_at 0 (feed_of 1)) query_plain ∅)) =
  alerts_handler (world_at 0 (feed_of 1)) query_plain ∅.
Proof.
  split.
  - apply (proj1 (nocache_skips_read_and_write
                    (world_at 0 (feed_of 1)) query_nocache ∅)).
    reflexivity.
  - apply (proj2 (nocache_skips_read_and_write
                    (world_at 0 (feed_of 1)) query_plain ∅)).
    + reflexivity.
    + reflexivity.
    + discriminate.
    + unfold ALERTS_TTL_MS. simpl. lia.
Defined.

(** C3 as stated fails: a request with [nocache=1] that fetches with
    success leaves no entry under its key, and a request without the flag
    one millisecond later is not served that result but fetches again. *)
Lemma nocache_result_not_written :
  let first := alerts_handler (world_at 0 (feed_of 1)) query_nocache ∅ in
  let second := alerts_handler (world_at 1 (feed_of 2)) query_plain (snd first) in
  (exists d, fst first = Json d) /\
  snd first !! alerts_key "ALL" DEFAULT_lat DEFAULT_lon = None /\
  fst second <> fst first.
Proof.
  split; [| split].
  - eexists. vm_compute. reflexivity.
  - vm_compute. reflexivity.
  - vm_compute. intros H. discriminate H.
Qed.

(** ** White space: [trim], [/\s+/] and the tokens *)

Lemma append_cons (a : ascii) (s p : string) :
  String a s ++ p = String a (s ++ p).
Proof. reflexivity. Qed.

Lemma append_empty_l (p : string) : "" ++ p = p.
Proof. reflexivity. Qed.

Lemma append_empty_r (s : string) : s ++ "" = s.
Proof.
  induction s as [| a s IH]; [reflexivity |].
  rewrite append_cons, IH. reflexivity.
Qed.

Lemma append_snoc (w : string) (a : ascii) (p : string) :
  w ++ String a p = (w ++ String a "") ++ p.
Proof.
  induction w as [| b w IH]; [reflexivity |].
  rewrite !append_cons, IH. reflexivity.
Qed.

Lemma length_append (w p : string) :
  String.length (w ++ p) = (String.length w + String.length p)%nat.
Proof.
  induction w as [| b w IH]; [reflexivity |].
  rewrite append_cons. simpl. rewrite IH. reflexivity.
Qed.

Lemma length_snoc (w : string) (a : ascii) :
  String.length (w ++ String a "") = S (String.length w).
Proof. rewrite length_append. simpl. lia. Qed.

Lemma drop_append (w p : string) : JS.drop (String.length w) (w ++ p) = p.
Proof.
  induction w as [| b w IH]; [reflexivity |].
  rewrite append_cons. simpl. exact IH.
Qed.

Lemma take_append (w p : string) : JS.take (String.length w) (w ++ p) = w.
Proof.
  induction w as [| b w IH]; [destruct p; reflexivity |].
  rewrite append_cons. simpl. rewrite IH. reflexivity.
Qed.

Lemma all_nonspace_snoc (w : string) (a : ascii) :
  all_nonspace w = true -> JS.is_space a = false ->
  all_nonspace (w ++ String a "") = true.
Proof.
  induction w as [| b w IH]; intros Hw Ha.
  - rewrite append_empty_l. simpl. rewrite Ha. reflexivity.
  - rewrite append_cons. simpl in *.
    apply andb_true_iff in Hw as [Hb Hw]. rewrite Hb, (IH Hw Ha). reflexivity.
Qed.

Lemma trimStart_length (s : string) :
  (String.length (JS.trimStart s) <= String.length s)%nat.
Proof.
  induction s as [| a s IH]; simpl; [lia |].
  destruct (JS.is_space a); simpl; lia.
Qed.

Lemma trimStart_head (s : string) : head_nonspace (JS.trimStart s) = true.
Proof.
  induction s as [| a s IH]; simpl; [reflexivity |].
  destruct (JS.is_space a) eqn:Ha; [exact IH | simpl; rewrite Ha; reflexivity].
Qed.

Lemma trimEnd_head (s : string) :
  head_nonspace s = true -> head_nonspace (JS.trimEnd s) = true.
Proof.
  destruct s as [| a s]; simpl; [reflexivity |]. intros Ha.
  destruct (JS.trimEnd s); [| exact Ha].
  destruct (JS.is_space a) eqn:E; [reflexivity | simpl; rewrite E; reflexivity].
Qed.

Lemma trimEnd_cons (a : ascii) (s : string) :
  JS.trimEnd (String a s) =
  match JS.trimEnd s with
  | EmptyString => if JS.is_space a then EmptyString else String a EmptyString
  | String b t => String a (String b t)
  end.
Proof. reflexivity. Qed.

Lemma trimEnd_idem (s : string) : JS.trimEnd (JS.trimEnd s) = JS.trimEnd s.
Proof.
  induction s as [| a s IH]; [reflexivity |].
  rewrite trimEnd_cons.
  destruct (JS.trimEnd s) as [| b t] eqn:Ht.
  - destruct (JS.is_space a) eqn:Ha; [reflexivity |].
    rewrite trimEnd_cons. simpl. rewrite Ha. reflexivity.
  - rewrite trimEnd_cons, IH. reflexivity.
Qed.

Lemma trimEnd_tail (a : ascii) (p : string) :
  JS.trimEnd (String a p) = String a p -> JS.trimEnd p = p.
Proof.
  simpl. destruct (JS.trimEnd p) as [| b t].
  - destruct (JS.is_space a); [discriminate |]. intros H. injection H as <-. reflexivity.
  - intros H. injection H as <-. reflexivity.
Qed.

Lemma trimEnd_trimStart (p : string) :
  JS.trimEnd p = p -> JS.trimEnd (JS.trimStart p) = JS.trimStart p.
Proof.
  induction p as [| a p IH]; simpl JS.trimStart; [trivial |].
  intros H. destruct (JS.is_space a); [| exact H].
  apply IH, (trimEnd_tail a), H.
Qed.

Lemma trimStart_empty_trimEnd (p : string) :
  JS.trimStart p = "" -> JS.trimEnd p = "".
Proof.
  induction p as [| a p IH]; simpl; [reflexivity |].
  destruct (JS.is_space a) eqn:Ha; [| discriminate].
  intros H. rewrite (IH H). reflexivity.
Qed.

(** After a space, a text without trailing white space goes on with a
    token. *)
Lemma trimStart_after_space (a : ascii) (p : string) :
  JS.is_space a = true -> JS.trimEnd (String a p) = String a p ->
  JS.trimStart p <> "".
Proof.
  intros Ha H Hnil. apply trimStart_empty_trimEnd in Hnil.
  simpl in H. rewrite Hnil, Ha in H. discriminate.
Qed.

Lemma tokens_app (w p : string) :
  all_nonspace w = true -> w <> "" -> space_headed p = true ->
  tokens (w ++ p) = w :: tokens p.
Proof.
  induction w as [| x w IH]; [congruence |].
  intros Hw _ Hp. simpl in Hw. apply andb_true_iff in Hw as [Hx Hw].
  apply negb_true_iff in Hx.
  rewrite append_cons. cbn [tokens]. rewrite Hx.
  destruct w as [| y w'].
  - rewrite append_empty_l. destruct p as [| a p'].
    + reflexivity.
    + simpl in Hp. rewrite Hp. reflexivity.
  - assert (Hy : JS.is_space y = false).
    { simpl in Hw. apply andb_true_iff in Hw as [Hy _].
      apply negb_true_iff in Hy. exact Hy. }
    rewrite append_cons, Hy, <- append_cons.
    rewrite (IH Hw ltac:(discriminate) Hp). reflexivity.
Qed.

Lemma tokens_trimStart (s : string) : tokens (JS.trimStart s) = tokens s.
Proof.
  induction s as [| a s IH]; [reflexivity |].
  cbn [JS.trimStart tokens].
  destruct (JS.is_space a) eqn:Ha; [exact IH |].
  cbn [tokens]. rewrite Ha. reflexivity.
Qed.

Lemma trimEnd_cons_head (a : ascii) (s : string) :
  JS.trimEnd (String a s) = "" \/
  exists t, JS.trimEnd (String a s) = String a t.
Proof.
  simpl. destruct (JS.trimEnd s).
  - destruct (JS.is_space a); [left; reflexivity | right; eexists; reflexivity].
  - right. eexists. reflexivity.
Qed.

Lemma tokens_trimEnd (s : string) : tokens (JS.trimEnd s) = tokens s.
Proof.
  induction s as [| a s IH]; [reflexivity |].
  cbn [JS.trimEnd].
  destruct (JS.trimEnd s) as [| b t] eqn:Ht.
  - (* nothing is kept of the tail: it has no token *)
    cbn [tokens] in IH.
    destruct (JS.is_space a) eqn:Ha.
    + cbn [tokens]. rewrite Ha. exact IH.
    + cbn [tokens]. rewrite Ha.
      destruct s as [| c s']; [reflexivity |].
      rewrite <- IH. destruct (JS.is_space c); reflexivity.
  - (* the tail keeps its head *)
    destruct s as [| c s']; [discriminate |].
    destruct (trimEnd_cons_head c s') as [Hnil | [t' Hc]];
      [congruence |].
    rewrite Hc in Ht. injection Ht as -> ->.
    cbn [tokens]. cbn [tokens] in IH.
    destruct (JS.is_space a); [exact IH |].
    destruct (JS.is_space b); rewrite IH; reflexivity.
Qed.

Lemma tokens_trim (s : string) : tokens (JS.trim s) = tokens s.
Proof. unfold JS.trim. rewrite tokens_trimEnd, tokens_trimStart. reflexivity. Qed.

(** The greedy loop of [\s*] before a continuation that accepts: it eats
    the white space at the head. *)
Lemma star_space (fuel : nat) :
  forall s c, (String.length s <= fuel)%nat ->
    Re.star_loop (Re.run Re.space) true accept fuel s c =
    Some (JS.trimStart s, c).
Proof.
  induction fuel as [| fuel IH]; intros s c Hlen.
  - destruct s; [reflexivity | simpl in Hlen; lia].
  - cbn [Re.star_loop]. destruct s as [| a s']; [reflexivity |].
    cbn [Re.run Re.space JS.trimStart].
    destruct (JS.is_space a); [| reflexivity].
    simpl in Hlen.
    destruct (Nat.ltb_spec (String.length s') (String.length (String a s')))
      as [_ | Hge]; [| simpl in Hge; lia].
    rewrite IH by lia. reflexivity.
Qed.

(** [/\s+/] at the head of a text. *)
Lemma exec_spaces (a : ascii) (s : string) :
  Re.exec_at spaces_re (String a s) =
  if JS.is_space a
  then Some (JS.take (String.length (String a s) - String.length (JS.trimStart s))
                     (String a s), [], JS.trimStart s)
  else None.
Proof.
  unfold Re.exec_at, spaces_re, Re.plus.
  cbn [Re.run Re.space].
  destruct (JS.is_space a); [| reflexivity].
  change (fun (s' : string) (c' : Re.caps) => Some (s', c')) with accept.
  rewrite star_space by lia. reflexivity.
Qed.

(** The loop of [split(/\s+/)] on a text without trailing white space:
    [w] is the token read so far and [p] what follows it. *)
Lemma split_loop_tokens (fuel : nat) :
  forall w p,
    all_nonspace w = true -> JS.trimEnd p = p ->
    (w = "" -> p <> "" /\ head_nonspace p = true) ->
    (String.length p < fuel)%nat ->
    Re.split_loop fuel spaces_re (w ++ p) (String.length w) = tokens (w ++ p).
Proof.
  induction fuel as [| fuel IH]; intros w p Hw Hend Hhead Hfuel; [lia |].
  cbn [Re.split_loop]. rewrite drop_append.
  destruct p as [| a p'].
  - rewrite append_empty_r.
    assert (Hne : w <> "") by (intros ->; destruct (Hhead eq_refl); congruence).
    rewrite <- (append_empty_r w) at 2.
    rewrite tokens_app by (assumption || reflexivity). reflexivity.
  - rewrite exec_spaces. destruct (JS.is_space a) eqn:Ha.
    + assert (Hne : w <> "").
      { intros ->. destruct (Hhead eq_refl) as [_ Hh]. simpl in Hh.
        rewrite Ha in Hh. discriminate. }
      pose proof (trimStart_length p') as Hle.
      destruct (Nat.eqb_spec (String.length (JS.trimStart p'))
                             (String.length (w ++ String a p'))) as [Heq | _].
      { rewrite length_append in Heq. simpl in Heq. lia. }
      rewrite take_append.
      rewrite tokens_app by (assumption || (simpl; exact Ha)).
      f_equal. cbn [tokens]. rewrite Ha, <- tokens_trimStart.
      apply (IH "" (JS.trimStart p')).
      * reflexivity.
      * apply trimEnd_trimStart, (trimEnd_tail a), Hend.
      * intros _. split; [apply (trimStart_after_space a); assumption |
                          apply trimStart_head].
      * simpl in Hfuel. lia.
    + rewrite append_snoc, <- length_snoc with (a := a).
      apply IH.
      * apply all_nonspace_snoc; assumption.
      * apply (trimEnd_tail a), Hend.
      * intros Hnil. destruct w; discriminate Hnil.
      * simpl in Hfuel. lia.
Qed.

Lemma split_spaces_trim (s : string) :
  JS.trim s <> "" -> Re.split spaces_re (JS.trim s) = tokens s.
Proof.
  intros Hne. rewrite <- tokens_trim. unfold Re.split.
  remember (JS.trim s) as t eqn:Ht. destruct t as [| a t']; [congruence |].
  apply (split_loop_tokens _ "" (String a t')).
  - reflexivity.
  - rewrite Ht. unfold JS.trim. apply trimEnd_idem.
  - intros _. split; [discriminate |].
    rewrite Ht. unfold JS.trim. apply trimEnd_head, trimStart_head.
  - simpl. lia.
Qed.

Lemma in_filter_Boolean {A : Type} (l : list (option A)) (x : A) :
  In x (filter_Boolean l) <-> In (Some x) l.
Proof.
  induction l as [| [y |] l IH]; simpl.
  - tauto.
  - rewrite IH. split; (intros [H | H]; [left; congruence | right; exact H]).
  - rewrite IH. split; [intros H; right; exact H | intros [H | H]; [discriminate | exact H]].
Qed.

Lemma parsePoint_finite (tok : string) (p : point) :
  parsePoint tok = Some p ->
  Num.isFinite (fst p) = true /\ Num.isFinite (snd p) = true.
Proof.
  unfold parsePoint.
  destruct (Num.isFinite _ && Num.isFinite _) eqn:H; [| discriminate].
  intros Hp. injection Hp as <-. apply andb_true_iff in H. exact H.
Qed.

Lemma parsePolygon_refines (s : string) :
  parsePolygon (Some s) = parsePolygon_spec s.
Proof.
  unfold parsePolygon, parsePolygon_spec.
  destruct s as [| a s']; [reflexivity |].
  destruct (JS.trim (String a s')) as [| b t] eqn:Ht.
  - (* a blank text: the one empty piece is dropped, and there is no token *)
    rewrite <- tokens_trim, Ht. reflexivity.
  - rewrite <- Ht, split_spaces_trim by (rewrite Ht; discriminate).
    reflexivity.
Qed.

(** C10. For every text (of code units below 256) [parsePolygon] returns
    what the design states: the text is cut into its maximal runs of
    characters that are not white space, the no-break space U+00A0
    counting as white space like TAB, LF, VT, FF, CR and SPACE; each
    token is split at its commas and its first two pieces are read with
    [parseFloat]; a token for which one of the two is not a finite number
    is dropped; and the points that remain are returned when there are at
    least 3 of them, null otherwise (null or the empty text give null as
    well).  Every point of a returned list is a pair of finite numbers.
    For [1,2 3,x 5,6] the tokens are [1,2], [3,x], [5,6], the second is
    dropped, 2 points remain and the result is null; a no-break space
    between two tokens separates them as a space does. *)
Theorem parsePolygon_tokens (s : string) :
  parsePolygon (Some s) = parsePolygon_spec s /\
  parsePolygon None = None /\
  (forall pts, parsePolygon (Some s) = Some pts ->
     (3 <= length pts)%nat /\
     pts = filter_Boolean (List.map parsePoint (tokens s)) /\
     forall p, In p pts ->
       Num.isFinite (fst p) = true /\ Num.isFinite (snd p) = true) /\
  tokens "1,2 3,x 5,6" = ["1,2"; "3,x"; "5,6"] /\
  List.map parsePoint ["1,2"; "3,x"; "5,6"] =
    [Some (1, 2)%float; None; Some (5, 6)%float] /\
  parsePolygon (Some "1,2 3,x 5,6") = None /\
  parsePolygon (Some ("1,2" ++ String nbsp "3,4 5,6 7,8")) =
    Some [(1, 2); (3, 4); (5, 6); (7, 8)]%float.
Proof.
  split; [apply parsePolygon_refines |]. split; [reflexivity |].
  split; [| repeat split; vm_compute; reflexivity].
  intros pts. rewrite parsePolygon_refines. unfold parsePolygon_spec.
  destruct (Nat.leb_spec 3 (length (filter_Boolean (List.map parsePoint (tokens s)))))
    as [Hlen | _]; [| discriminate].
  intros H. injection H as <-. split; [exact Hlen |]. split; [reflexivity |].
  intros p Hp. apply in_filter_Boolean, List.in_map_iff in Hp as (tok & Htok & _).
  apply (parsePoint_finite tok), Htok.
Qed.

Lemma parsePolygon_tokens_witness :
  parsePolygon (Some " 33.7,-84.4  33.8,-84.4 bad 33.8,-84.3 ") =
    Some [(Num.literal "33.7", Num.literal "-84.4");
          (Num.literal "33.8", Num.literal "-84.4");
          (Num.literal "33.8", Num.literal "-84.3")] /\
  (3 <= 3)%nat.
Proof.
  assert (H : parsePolygon (Some " 33.7,-84.4  33.8,-84.4 bad 33.8,-84.3 ") =
    Some [(Num.literal "33.7", Num.literal "-84.4");
          (Num.literal "33.8", Num.literal "-84.4");
          (Num.literal "33.8", Num.literal "-84.3")])
    by (vm_compute; reflexivity).
  split; [exact H |].
  apply (proj1 (proj2 (proj2 (parsePolygon_tokens _))) _ H).
Defined.

(** ** What the patterns of the geocode decoder and of [get] can match *)

(** A case-insensitive literal matches a prefix of the input or fails. *)
Lemma run_lit_i (p : string) :
  forall k s c,
    Re.run (Re.lit_i p) k s c =
    if starts_i s p then k (JS.drop (String.length p) s) c else None.
Proof.
  induction p as [| a p IH]; intros k s c; [destruct s; reflexivity |].
  destruct p as [| a' p'].
  - cbn [Re.lit_i Re.chr_i Re.run]. destruct s as [| b s']; [reflexivity |].
    cbn [starts_i String.length JS.drop].
    destruct (Ascii.eqb (JS.upper_char b) (JS.upper_char a));
      [destruct s' |]; reflexivity.
  - change (Re.lit_i (String a (String a' p')))
      with (Re.Cat (Re.chr_i a) (Re.lit_i (String a' p'))).
    cbn [Re.run Re.chr_i]. destruct s as [| b s']; [reflexivity |].
    rewrite IH.
    change (starts_i (String b s') (String a (String a' p')))
      with (Ascii.eqb (JS.upper_char b) (JS.upper_char a)
            && starts_i s' (String a' p')).
    destruct (Ascii.eqb (JS.upper_char b) (JS.upper_char a)); reflexivity.
Qed.

(** The leftmost match starts where the pattern matches at the head. *)
Lemma find_from_exec (r : Re.regex) (s : string) :
  forall i m, Re.find_from r s i = Some m ->
    (i <= Re.m_index m)%nat /\
    Re.exec_at r (JS.drop (Re.m_index m - i) s) <> None.
Proof.
  induction s as [| a s IH]; intros i m; cbn [Re.find_from].
  - destruct (Re.exec_at r "") as [[[t c] rest] |] eqn:He; [| discriminate].
    intros H. injection H as <-. cbn [Re.m_index].
    rewrite Nat.sub_diag. cbn [JS.drop]. rewrite He. split; [lia | discriminate].
  - destruct (Re.exec_at r (String a s)) as [[[t c] rest] |] eqn:He.
    + intros H. injection H as <-. cbn [Re.m_index].
      rewrite Nat.sub_diag. cbn [JS.drop]. rewrite He. split; [lia | discriminate].
    + intros H. destruct (IH _ _ H) as [Hle Hex]. split; [lia |].
      replace (Re.m_index m - i)%nat with (S (Re.m_index m - S i)) by lia.
      exact Hex.
Qed.

Lemma exec_valueName_of (name s : string) :
  Re.exec_at (valueName_of_re name) s <> None ->
  starts_i s "<valueName>" = true.
Proof.
  unfold Re.exec_at, valueName_of_re.
  change (Re.seq [Re.lit_i "<valueName>"; Re.Star true Re.space; Re.lit_i name;
                  Re.Star true Re.space; Re.lit_i "</valueName>"])
    with (Re.Cat (Re.lit_i "<valueName>")
            (Re.seq [Re.Star true Re.space; Re.lit_i name;
                     Re.Star true Re.space; Re.lit_i "</valueName>"])).
  cbn [Re.run]. rewrite run_lit_i.
  destruct (starts_i s "<valueName>"); [reflexivity | congruence].
Qed.

Lemma search_valueName_head (s : string) :
  starts_i s "<valueName>" = true -> Re.search valueName_re s = 0.
Proof.
  intros H. unfold Re.search, Re.find, valueName_re.
  destruct s as [| a s'];
    cbn [Re.find_from]; unfold Re.exec_at; rewrite run_lit_i, H; reflexivity.
Qed.

(** In [geocode_values] the search for the next [<valueName>] always
    answers 0: [after] starts with the [<valueName>] of the group itself.
    So [stop > 0] never holds and the segment is the whole of [after]. *)
Lemma geocode_stop_is_zero (name g : string) :
  0 <= Re.search (valueName_of_re name) g ->
  Re.search valueName_re
    (JS.drop (Z.to_nat (Re.search (valueName_of_re name) g)) g) = 0.
Proof.
  intros Hidx.
  assert (H : exists m, Re.find_from (valueName_of_re name) g 0 = Some m /\
                        Re.search (valueName_of_re name) g = Z.of_nat (Re.m_index m)).
  { unfold Re.search, Re.find in *.
    destruct (Re.find_from (valueName_of_re name) g 0) as [m |];
      [exists m; split; reflexivity | lia]. }
  destruct H as (m & Hm & ->).
  destruct (find_from_exec _ _ _ _ Hm) as [_ Hex].
  rewrite Nat.sub_0_r in Hex. rewrite Nat2Z.id.
  apply search_valueName_head, (exec_valueName_of name), Hex.
Qed.

(** So the codes of a group are those of every [<value>] from its
    [<valueName>] to the end of the geocode block. *)
Lemma geocode_values_to_block_end (name : string) (norm : string -> string)
    (g : string) :
  0 <= Re.search (valueName_of_re name) g ->
  geocode_values name norm g =
  segment_codes norm
    (JS.drop (Z.to_nat (Re.search (valueName_of_re name) g)) g).
Proof.
  intros Hidx. unfold geocode_values.
  destruct (Z.leb_spec 0 (Re.search (valueName_of_re name) g)); [| lia].
  cbv zeta. rewrite (geocode_stop_is_zero name g Hidx). reflexivity.
Qed.

(** The pattern of the [replace] in [get] needs a backslash after [<!]. *)
Lemma exec_cdata_none (s : string) :
  free_of "\" s = true -> Re.exec_at cdata_re s = None.
Proof.
  intros Hfree. unfold Re.exec_at, cdata_re.
  cbn [Re.seq Re.lit Re.chr Re.run].
  destruct s as [| a s1]; [reflexivity |].
  destruct (Ascii.eqb "<" a); [| reflexivity].
  destruct s1 as [| b s2]; [reflexivity |].
  destruct (Ascii.eqb "!" b); [| reflexivity].
  destruct s2 as [| c s3]; [reflexivity |].
  cbn [free_of] in Hfree.
  apply andb_true_iff in Hfree as [_ Hfree].
  apply andb_true_iff in Hfree as [_ Hfree].
  apply andb_true_iff in Hfree as [Hc _].
  apply negb_true_iff in Hc. rewrite Hc. reflexivity.
Qed.

Lemma find_cdata_none (s : string) :
  forall i, free_of "\" s = true -> Re.find_from cdata_re s i = None.
Proof.
  induction s as [| a s IH]; intros i Hfree; cbn [Re.find_from];
    rewrite (exec_cdata_none _ Hfree); [reflexivity |].
  cbn [free_of] in Hfree. apply andb_true_iff in Hfree as [_ Hfree].
  apply IH, Hfree.
Qed.

(** On a text without a backslash, and so on every CDATA section of
    plain text, the [replace] of [get] changes nothing. *)
Lemma replace_cdata_identity (s : string) :
  free_of "\" s = true -> Re.replace_dollar1 cdata_re s = s.
Proof.
  intros Hfree. unfold Re.replace_dollar1. cbn [Re.replace_fuel].
  unfold Re.find. rewrite (find_cdata_none _ _ Hfree). reflexivity.
Qed.

(** ** Polygon containment *)

(** C9. On the square [[0,0],[0,10],[10,10],[10,0]], [pointInPolygon]
    answers true for the inner point (5,5) and false for the outer point
    (20,20); for the point (0,5) on an edge it is a total function whose
    value is [true]; and on every list of fewer than 3 points (and on a
    value that is not an array) it answers false, whatever the query
    point. *)
Theorem pointInPolygon_square_and_degenerate :
  pointInPolygon 5 5 (Some square) = true /\
  pointInPolygon 20 20 (Some square) = false /\
  pointInPolygon 0 5 (Some square) = true /\
  (forall lat lon (poly : list point),
      (length poly < 3)%nat -> pointInPolygon lat lon (Some poly) = false) /\
  (forall lat lon, pointInPolygon lat lon None = false).
Proof.
  repeat split; try (vm_compute; reflexivity).
  intros lat lon poly Hlen. unfold pointInPolygon.
  destruct (Nat.ltb_spec (length poly) 3) as [_ | Hge]; [reflexivity | lia].
Qed.

Lemma pointInPolygon_square_and_degenerate_witness :
  (length [(1, 2); (3, 4)]%float < 3)%nat /\
  pointInPolygon 1 3 (Some [(1, 2); (3, 4)]%float) = false.
Proof.
  split.
  - simpl. lia.
  - apply (proj1 (proj2 (proj2 (proj2 pointInPolygon_square_and_degenerate)))).
    simpl. lia.
Defined.

(** ** The entry parser on sample blocks *)

(** C4, evaluated. For the block
    [<entry><id>urn:1</id><summary><![CDATA[text]]></summary></entry>]
    [get('summary')] returns the text with its CDATA wrapper still around
    it: the pattern of the [replace] has no capturing group and asks for
    backslashes that the wrapper does not have.  The pattern with single
    backslashes would return [text].  A tag that is not in the block
    resolves to null, and the id, which has no wrapper, comes out trimmed. *)
Theorem get_keeps_cdata_wrapper :
  get cdata_entry "summary" = Some "<![CDATA[text]]>" /\
  Re.has_group 1 cdata_re = false /\
  JS.trim (Re.replace_dollar1 cdata_re_single "<![CDATA[text]]>") = "text" /\
  get cdata_entry "title" = None /\
  get "<entry><id> urn:1 </id></entry>" "id" = Some "urn:1".
Proof. repeat split; vm_compute; reflexivity. Qed.

(** C5, evaluated. When a FIPS6 group follows the UGC group inside one
    geocode block, the values of the FIPS6 group are collected as UGC
    codes too: the search for the next [<valueName>] finds the UGC one
    itself at index 0, and [stop > 0] then keeps the whole rest of the
    block.  The block of the decoding example, which has a single group,
    yields [GAZ001], [GAZ002], [GAZ003]. *)
Theorem geocode_values_run_past_next_group :
  geocode_values "UGC" JS.toUpperCase geocode_two_groups = ["GAZ001"; "013121"] /\
  ugc (parseEntry (entry_around geocode_two_groups)) = ["GAZ001"; "013121"] /\
  fips6 (parseEntry (entry_around geocode_two_groups)) = ["013121"] /\
  Re.search valueName_re
    (JS.drop (Z.to_nat (Re.search (valueName_of_re "UGC") geocode_two_groups))
             geocode_two_groups) = 0 /\
  ugc (parseEntry (entry_around geocode_example)) = ["GAZ001"; "GAZ002"; "GAZ003"].
Proof. repeat split; vm_compute; reflexivity. Qed.

(* ===================================================================== *)
(** * Further properties of the pipeline *)
(* ===================================================================== *)

(** ** Deduplication *)

Lemma first_seen_fixed (l : list AlertEntry) :
  forall seen,
    (forall e, In e l -> JS.truthy (id e) = true /\ unseen seen e) ->
    List.NoDup (List.map id l) ->
    first_seen seen l = l.
Proof.
  induction l as [| x l IH]; intros seen Hall Hnd; [reflexivity |].
  simpl in Hnd. apply List.NoDup_cons_iff in Hnd as [Hx Hnd].
  destruct (Hall x (or_introl eq_refl)) as [Ht Hu].
  cbn [first_seen].
  destruct (id x) as [[| a k] |] eqn:Hid; simpl in Ht; try discriminate.
  rewrite (Hu _ Hid). f_equal. apply IH; [| exact Hnd].
  intros e He. destruct (Hall e (or_intror He)) as [Hte Hue].
  split; [exact Hte |]. intros k0 Hk0.
  rewrite existsb_snoc, (Hue _ Hk0), orb_false_l.
  apply String.eqb_neq. intros Heq. subst k0. apply Hx.
  apply List.in_map_iff. exists e. split; [exact Hk0 | exact He].
Qed.

(** X1. Deduplicating a deduplicated list changes nothing. *)
Theorem dedupe_idempotent (merged : list AlertEntry) :
  dedupe (dedupe merged) = dedupe merged.
Proof.
  rewrite (dedupe_first_seen (dedupe merged)), dedupe_first_seen.
  apply first_seen_fixed; [| apply first_seen_NoDup].
  intros e He. destruct (first_seen_kept _ _ _ He) as (Ht & _ & _).
  split; [exact Ht | intros k _; reflexivity].
Qed.

Lemma first_seen_app (l1 l2 : list AlertEntry) :
  forall seen,
    first_seen seen (l1 ++ l2)%list =
    (first_seen seen l1
     ++ first_seen (seen ++ keys_of (first_seen seen l1)) l2)%list.
Proof.
  induction l1 as [| x l1 IH]; intros seen.
  - simpl. rewrite app_nil_r. reflexivity.
  - cbn [app first_seen].
    destruct (id x) as [[| a k] |] eqn:Hid; try apply IH.
    destruct (existsb _ seen); [apply IH |].
    rewrite IH. cbn [app keys_of]. rewrite Hid, <- app_assoc. reflexivity.
Qed.

Lemma keys_of_In (l : list AlertEntry) (e : AlertEntry) (k : string) :
  In e l -> JS.truthy (id e) = true -> id e = Some k ->
  existsb (fun k' => String.eqb k' k) (keys_of l) = true.
Proof.
  induction l as [| x l IH]; intros Hin Ht Hk; [contradiction |].
  destruct Hin as [-> | Hin].
  - cbn [keys_of]. rewrite Hk in Ht |- *. destruct k as [| a k']; [discriminate |].
    simpl. rewrite Ascii.eqb_refl, String.eqb_refl. reflexivity.
  - cbn [keys_of]. destruct (id x) as [[| a k'] |]; try (apply IH; assumption).
    cbn [existsb]. rewrite (IH Hin Ht Hk). apply orb_true_r.
Qed.

(** X2. Entries of an earlier feed are never displaced by a later one:
    the deduplicated merge of [l1] followed by [l2] is the deduplicated
    [l1] followed by entries of [l2], in their order, whose ids occur
    nowhere in [l1]. *)
Theorem dedupe_earlier_feed_first (l1 l2 : list AlertEntry) :
  exists rest,
    dedupe (l1 ++ l2)%list = (dedupe l1 ++ rest)%list /\
    rest `sublist_of` l2 /\
    forall e e1, In e rest -> In e1 l1 -> id e <> id e1.
Proof.
  exists (first_seen ([] ++ keys_of (first_seen [] l1)) l2).
  rewrite !dedupe_first_seen. split; [apply first_seen_app |].
  split; [apply first_seen_sublist |].
  intros e e1 He He1 Heq.
  destruct (first_seen_kept _ _ _ He) as (Ht & Hu & _).
  rewrite Heq in Ht.
  destruct (first_seen_covers l1 [] e1 He1 Ht) as (e' & He' & Hid).
  { intros k _. reflexivity. }
  destruct (id e) as [k |] eqn:Hk; [| rewrite <- Heq in Ht; discriminate].
  specialize (Hu k Hk). cbn [app] in Hu.
  rewrite (keys_of_In _ e' k He') in Hu; [discriminate | | congruence].
  rewrite Hid. exact Ht.
Qed.

Lemma dedupe_earlier_feed_first_witness :
  exists rest,
    dedupe (parseAtom (feed_of 2) ++ parseAtom (feed_of 3))%list =
      (dedupe (parseAtom (feed_of 2)) ++ rest)%list /\
    rest `sublist_of` parseAtom (feed_of 3) /\
    forall e e1, In e rest -> In e1 (parseAtom (feed_of 2)) -> id e <> id e1.
Proof. exact (dedupe_earlier_feed_first _ _). Defined.

(** ** What every result looks like *)

Lemma sublist_In {A : Type} (l1 l2 : list A) :
  l1 `sublist_of` l2 -> forall x, In x l1 -> In x l2.
Proof.
  induction 1 as [| x l1 l2 _ IH | x l1 l2 _ IH]; intros y Hy.
  - contradiction.
  - destruct Hy as [-> | Hy]; [left; reflexivity | right; apply IH, Hy].
  - right. apply IH, Hy.
Qed.

Lemma sublist_NoDup_map {A B : Type} (f : A -> B) (l1 l2 : list A) :
  l1 `sublist_of` l2 -> List.NoDup (List.map f l2) -> List.NoDup (List.map f l1).
Proof.
  induction 1 as [| x l1 l2 Hsub IH | x l1 l2 Hsub IH]; intros Hnd.
  - constructor.
  - simpl in *. apply List.NoDup_cons_iff in Hnd as [Hx Hnd].
    apply List.NoDup_cons; [| apply IH, Hnd].
    intros Hin. apply Hx. apply List.in_map_iff in Hin as (y & Hy & Hin).
    apply List.in_map_iff. exists y. split; [exact Hy |].
    apply (sublist_In _ _ Hsub), Hin.
  - simpl in Hnd. apply List.NoDup_cons_iff in Hnd as [_ Hnd]. apply IH, Hnd.
Qed.

Lemma items_sublist st lat lon iso n xmls :
  items (aggregate st lat lon iso n xmls) `sublist_of`
    dedupe (List.concat (List.map parseAtom xmls)).
Proof.
  rewrite (proj1 (aggregate_items st lat lon iso n xmls)). unfold cap50.
  etransitivity; [apply sublist_take | apply working_sublist].
Qed.

(** X3. In every result of the aggregator the items carry pairwise
    different ids, and each id is a non-empty string. *)
Theorem items_distinct_ids st lat lon iso n xmls :
  List.NoDup (List.map id (items (aggregate st lat lon iso n xmls))) /\
  forall e, In e (items (aggregate st lat lon iso n xmls)) ->
    JS.truthy (id e) = true.
Proof.
  pose proof (items_sublist st lat lon iso n xmls) as Hsub.
  split.
  - apply (sublist_NoDup_map id _ _ Hsub).
    rewrite dedupe_first_seen. apply first_seen_NoDup.
  - intros e He. apply (sublist_In _ _ Hsub) in He.
    rewrite dedupe_first_seen in He.
    destruct (first_seen_kept _ _ _ He) as (Ht & _ & _). exact Ht.
Qed.

Lemma items_distinct_ids_witness :
  JS.truthy (id (bare_id "2")) = true.
Proof.
  apply (proj2 (items_distinct_ids "ALL" 5 5 "2026-01-01T00:00:00.000Z" 1
                  [feed_of 2])).
  vm_compute. left. reflexivity.
Defined.

Lemma filter_length_le {A : Type} (p : A -> bool) (l : list A) :
  (length (List.filter p l) <= length l)%nat.
Proof.
  induction l as [| x l IH]; simpl; [lia |]. destruct (p x); simpl; lia.
Qed.

Lemma state_filter_counts (st : string) (all : list AlertEntry) :
  (snd (state_filter st all) <= length all)%nat /\
  length (fst (state_filter st all)) =
    if Nat.ltb 0 (snd (state_filter st all))
    then snd (state_filter st all) else length all.
Proof.
  unfold state_filter.
  pose proof (filter_length_le (state_match st) all) as Hle.
  destruct (JS.truthy (Some st) && negb (String.eqb st "ALL")).
  - destruct (length (List.filter (state_match st) all)) as [| k] eqn:Hk;
      cbn [Nat.eqb fst snd Nat.ltb Nat.leb]; rewrite ?Hk; split; (lia || reflexivity).
  - cbn [fst snd]. split; [lia |].
    destruct (length all); reflexivity.
Qed.

Lemma poly_filter_counts (lat lon : float) (work : list AlertEntry) :
  (snd (poly_filter lat lon work) <= length work)%nat /\
  length (fst (poly_filter lat lon work)) =
    if Nat.ltb 0 (snd (poly_filter lat lon work))
    then snd (poly_filter lat lon work) else length work.
Proof.
  unfold poly_filter.
  pose proof (filter_length_le (poly_hit lat lon) work) as Hle.
  destruct (Nat.ltb 0 (length (List.filter (poly_hit lat lon) work))) eqn:Hlt;
    cbn [fst snd]; rewrite Hlt; split; (lia || reflexivity).
Qed.

(** X4. The [debug] block tells how [count] came about: [fetched] is the
    size of the deduplicated list, [afterState] and [afterPoly] never
    exceed it, and [count] is the smaller of 50 and [afterPoly] when that
    is positive, else [afterState] when that is positive, else
    [fetched]. *)
Theorem debug_explains_count st lat lon iso n xmls :
  let r := aggregate st lat lon iso n xmls in
  fetched (debug r) = length (dedupe (List.concat (List.map parseAtom xmls))) /\
  feeds (debug r) = n /\
  (afterState (debug r) <= fetched (debug r))%nat /\
  (afterPoly (debug r) <= fetched (debug r))%nat /\
  (count r <= fetched (debug r))%nat /\
  count r =
    Nat.min 50
      (if Nat.ltb 0 (afterPoly (debug r)) then afterPoly (debug r)
       else if Nat.ltb 0 (afterState (debug r)) then afterState (debug r)
       else fetched (debug r)).
Proof.
  unfold aggregate.
  set (all := dedupe (List.concat (List.map parseAtom xmls))).
  destruct (state_filter_counts st all) as [Hs1 Hs2].
  destruct (state_filter st all) as [work1 nState]. cbn [fst snd] in Hs1, Hs2.
  destruct (poly_filter_counts lat lon work1) as [Hp1 Hp2].
  destruct (poly_filter lat lon work1) as [work2 nPoly]. cbn [fst snd] in Hp1, Hp2.
  cbn [fetched debug feeds afterState afterPoly count].
  unfold cap50. rewrite length_firstn, Hp2, Hs2.
  destruct (Nat.ltb 0 nPoly) eqn:HP; destruct (Nat.ltb 0 nState) eqn:HS;
    rewrite ?Hs2, ?HS in Hp1; repeat split; try reflexivity; lia.
Qed.

(** ** The handlers and the cache *)

Lemma fetch_all_fails (f : string -> option string) (urls : list string) :
  (exists u, In u urls /\ f u = None) -> fetch_all f urls = None.
Proof.
  induction urls as [| u urls IH]; intros (u0 & Hin & Hf); [contradiction |].
  cbn [fetch_all]. destruct Hin as [-> | Hin].
  - rewrite Hf. reflexivity.
  - rewrite IH by (exists u0; split; assumption).
    destruct (f u); reflexivity.
Qed.

(** X5. No partial results: when one of the feeds fails and the request
    is not answered from the cache (the flag nocache is set, or the read
    misses), the answer is the 500 error and the cache is left as it was,
    whatever the other feeds delivered. *)
Theorem alerts_feed_failure (w : World) (q : Query) (cache : Cache) :
  (exists u, In u ALERT_ATOM_URLS /\ fetch w u = None) ->
  req_nocache q = true \/ cache_get cache (query_key q) (now w) = None ->
  alerts_handler w q cache = (Error500 "Failed to retrieve alerts", cache).
Proof.
  intros Hfail Hmiss. unfold alerts_handler. fold (query_key q).
  rewrite (fetch_all_fails _ _ Hfail).
  destruct (req_nocache q); [reflexivity |].
  destruct Hmiss as [Hnc | ->]; [discriminate | reflexivity].
Qed.

Lemma alerts_feed_failure_witness :
  alerts_handler (world_second_down 0 (feed_of 1)) query_plain ∅ =
  (Error500 "Failed to retrieve alerts", ∅).
Proof.
  apply alerts_feed_failure.
  - eexists. split; [right; left; reflexivity | reflexivity].
  - right. reflexivity.
Defined.

(** X6. The cache entry is shared by every query with the same key, that
    is the same state and the same coordinates to two decimals: after a
    request without nocache that missed and fetched with success, a
    request without nocache for any such query, before the TTL has
    elapsed, gets the very same body (state, point and items of the first
    request) and leaves the cache alone, even when the feeds are down by
    then. *)
Theorem alerts_cache_shared_by_key (w w' : World) (q q' : Query)
    (cache : Cache) :
  req_nocache q = false -> req_nocache q' = false ->
  query_key q' = query_key q ->
  cache_get cache (query_key q) (now w) = None ->
  fetch_all (fetch w) ALERT_ATOM_URLS <> None ->
  now w <= now w' < now w + ALERTS_TTL_MS ->
  alerts_handler w' q' (snd (alerts_handler w q cache)) =
  alerts_handler w q cache.
Proof.
  intros Hnc Hnc' Hkey Hmiss Hfetch Hw'. unfold alerts_handler.
  fold (query_key q) (query_key q'). rewrite Hnc, Hnc', Hkey, Hmiss.
  destruct (fetch_all (fetch w) ALERT_ATOM_URLS) as [xmls |]; [| congruence].
  cbn [snd fst]. rewrite cache_get_set_same.
  destruct (Z.ltb_spec (now w') (now w + ALERTS_TTL_MS)); [reflexivity | lia].
Qed.

Lemma alerts_cache_shared_by_key_witness :
  alerts_handler (world_down 119999) (query_at "ga" "33.749" "-84.388")
    (snd (alerts_handler (world_at 0 (feed_of 1))
            (query_at "GA" "33.751" "-84.39") ∅)) =
  alerts_handler (world_at 0 (feed_of 1)) (query_at "GA" "33.751" "-84.39") ∅.
Proof.
  apply alerts_cache_shared_by_key.
  - reflexivity.
  - reflexivity.
  - vm_compute. reflexivity.
  - reflexivity.
  - vm_compute. discriminate.
  - unfold ALERTS_TTL_MS. simpl. lia.
Defined.

(** X7. A request touches no cache entry but the one of its own key, and
    what it writes there, if anything, expires [ALERTS_TTL_MS] after the
    clock reading of the request. *)
Theorem alerts_handler_writes_own_key (w : World) (q : Query) (cache : Cache) :
  (forall k, k <> query_key q ->
     snd (alerts_handler w q cache) !! k = cache !! k) /\
  (snd (alerts_handler w q cache) !! query_key q = cache !! query_key q \/
   exists d, snd (alerts_handler w q cache) !! query_key q =
             Some {| data := d; expiresAt := now w + ALERTS_TTL_MS |}).
Proof.
  unfold alerts_handler. fold (query_key q).
  destruct (req_nocache q).
  - destruct (fetch_all (fetch w) ALERT_ATOM_URLS); cbn [snd];
      (split; [reflexivity | left; reflexivity]).
  - destruct (cache_get cache (query_key q) (now w));
      [cbn [snd]; split; [reflexivity | left; reflexivity] |].
    destruct (fetch_all (fetch w) ALERT_ATOM_URLS); cbn [snd];
      [| split; [reflexivity | left; reflexivity]].
    unfold cache_set. split.
    + intros k Hk. apply lookup_insert_ne. congruence.
    + right. eexists. apply lookup_insert_eq.
Qed.

Lemma alerts_handler_writes_own_key_witness :
  snd (alerts_handler (world_at 0 (feed_of 1)) query_plain ∅) !! "air:33.749:-84.388"
  = (∅ : Cache) !! "air:33.749:-84.388".
Proof.
  apply (proj1 (alerts_handler_writes_own_key _ _ _)).
  vm_compute. discriminate.
Defined.

(** X8. The weather and the air-quality handler never serve an expired
    entry: with an entry that has expired and a provider that fails, the
    answer is the 500 error, and the expired entry stays where it is.
    After a miss with a provider that succeeds, every request for the
    same key before the TTL of the endpoint has elapsed (one minute for
    weather, ten for air quality) is answered with the stored payload,
    whatever the provider does by then. *)
Theorem provider_handlers_cache (key : string) (t : Z) (cache : Cache) :
  (forall e, cache !! key = Some e -> expiresAt e <= t ->
     weather_handler key t None cache =
       (Error500 "Failed to retrieve weather data", cache) /\
     air_handler key t None cache =
       (Error500 "Failed to retrieve air quality", cache)) /\
  (forall json provider t',
     cache_get cache key t = None ->
     (t <= t' < t + DEFAULT_TTL_MS ->
      weather_handler key t' provider
        (snd (weather_handler key t (Some json) cache)) =
      weather_handler key t (Some json) cache) /\
     (t <= t' < t + AIR_TTL_MS ->
      air_handler key t' provider
        (snd (air_handler key t (Some json) cache)) =
      air_handler key t (Some json) cache)).
Proof.
  split.
  - intros e He Hexp.
    assert (Hmiss : cache_get cache key t = None).
    { unfold cache_get. rewrite He.
      destruct (Z.ltb_spec t (expiresAt e)); [lia | reflexivity]. }
    unfold weather_handler, air_handler. rewrite Hmiss. split; reflexivity.
  - intros json provider t' Hmiss.
    unfold weather_handler, air_handler. rewrite Hmiss. cbn [snd].
    rewrite !cache_get_set_same. split; intros Ht'.
    + destruct (Z.ltb_spec t' (t + DEFAULT_TTL_MS)); [reflexivity | lia].
    + destruct (Z.ltb_spec t' (t + AIR_TTL_MS)); [reflexivity | lia].
Qed.

Lemma provider_handlers_cache_witness :
  weather_handler "33.749:-84.388:us" 60000 None
    (cache_set ∅ "33.749:-84.388:us" (ProviderBody "{}") 0 DEFAULT_TTL_MS) =
  (Error500 "Failed to retrieve weather data",
   cache_set ∅ "33.749:-84.388:us" (ProviderBody "{}") 0 DEFAULT_TTL_MS) /\
  air_handler "air:33.749:-84.388" 599999 None
    (snd (air_handler "air:33.749:-84.388" 0 (Some "{}") ∅)) =
  air_handler "air:33.749:-84.388" 0 (Some "{}") ∅.
Proof.
  split.
  - eapply (proj1 (provider_handlers_cache _ 60000 _)).
    + apply lookup_insert_eq.
    + vm_compute. discriminate.
  - apply (proj2 (provider_handlers_cache "air:33.749:-84.388" 0 ∅)).
    + reflexivity.
    + unfold AIR_TTL_MS. lia.
Defined.

(** ** The cache key *)

Lemma append_assoc (a b c : string) : (a ++ b) ++ c = a ++ (b ++ c).
Proof.
  induction a as [| x a IH]; [reflexivity |].
  rewrite !append_cons, IH. reflexivity.
Qed.

Lemma append_inj_l (p x y : string) : p ++ x = p ++ y -> x = y.
Proof.
  induction p as [| a p IH]; [trivial |].
  rewrite !append_cons. intros H. injection H as H. apply IH, H.
Qed.

Lemma append_inj_r (t : string) :
  forall x y, x ++ t = y ++ t -> x = y.
Proof.
  intros x y H.
  assert (Hlen : String.length x = String.length y).
  { apply (f_equal String.length) in H. rewrite !length_append in H. lia. }
  revert y H Hlen. induction x as [| a x IH]; intros [| b y] H Hlen;
    try discriminate; [reflexivity |].
  rewrite !append_cons in H. injection H as -> H.
  simpl in Hlen. f_equal. apply IH; [exact H | lia].
Qed.

Lemma free_of_after_sep (c : ascii) (x b : string) :
  free_of c (x ++ String c b) = false.
Proof.
  induction x as [| a x IH].
  - rewrite append_empty_l. cbn [free_of]. rewrite Ascii.eqb_refl. reflexivity.
  - rewrite append_cons. cbn [free_of]. rewrite IH. apply andb_false_r.
Qed.

(** A text is cut in one way only at the last occurrence of a
    separator. *)
Lemma last_sep_inj (c : ascii) (x : string) :
  forall x' b b',
    free_of c b = true -> free_of c b' = true ->
    x ++ String c b = x' ++ String c b' -> x = x' /\ b = b'.
Proof.
  induction x as [| a x IH]; intros [| a' x'] b b' Hb Hb' H.
  - rewrite !append_empty_l in H. injection H as ->. split; reflexivity.
  - rewrite append_empty_l, append_cons in H. injection H as _ ->.
    rewrite free_of_after_sep in Hb. discriminate.
  - rewrite append_empty_l, append_cons in H. injection H as _ <-.
    rewrite free_of_after_sep in Hb'. discriminate.
  - rewrite !append_cons in H. injection H as -> H.
    destruct (IH _ _ _ Hb Hb' H) as [-> ->]. split; reflexivity.
Qed.

Lemma all_chars_app (P : ascii -> bool) (s t : string) :
  all_chars P (s ++ t) = all_chars P s && all_chars P t.
Proof.
  induction s as [| a s IH]; [reflexivity |].
  rewrite append_cons. cbn [all_chars]. rewrite IH. apply andb_assoc.
Qed.

Lemma all_chars_take (P : ascii -> bool) (s : string) :
  forall n, all_chars P s = true -> all_chars P (JS.take n s) = true.
Proof.
  induction s as [| a s IH]; intros [| n] H; try reflexivity.
  cbn [all_chars JS.take] in *. apply andb_true_iff in H as [Ha Hs].
  rewrite Ha, (IH n Hs). reflexivity.
Qed.

Lemma all_chars_drop (P : ascii -> bool) (s : string) :
  forall n, all_chars P s = true -> all_chars P (JS.drop n s) = true.
Proof.
  induction s as [| a s IH]; intros [| n] H; try reflexivity; [exact H |].
  cbn [all_chars JS.drop] in *. apply andb_true_iff in H as [_ Hs].
  apply IH, Hs.
Qed.

Lemma all_chars_weaken (P Q : ascii -> bool) (s : string) :
  (forall a, P a = true -> Q a = true) ->
  all_chars P s = true -> all_chars Q s = true.
Proof.
  intros HPQ. induction s as [| a s IH]; [reflexivity |].
  cbn [all_chars]. intros H. apply andb_true_iff in H as [Ha Hs].
  rewrite (HPQ _ Ha), (IH Hs). reflexivity.
Qed.

Lemma all_chars_free (P : ascii -> bool) (c : ascii) (s : string) :
  P c = false -> all_chars P s = true -> free_of c s = true.
Proof.
  intros Hc. induction s as [| a s IH]; [reflexivity |].
  cbn [all_chars free_of]. intros H. apply andb_true_iff in H as [Ha Hs].
  rewrite (IH Hs), andb_true_r. apply negb_true_iff, Ascii.eqb_neq.
  intros <-. congruence.
Qed.

Lemma digit_char (n : Z) :
  JS.is_digit (ascii_of_nat (Z.to_nat (48 + n mod 10))) = true.
Proof.
  pose proof (Z.mod_pos_bound n 10 ltac:(lia)) as Hr.
  remember (n mod 10) as r eqn:Er. clear Er.
  assert (Hcases : r = 0 \/ r = 1 \/ r = 2 \/ r = 3 \/ r = 4 \/ r = 5 \/
                   r = 6 \/ r = 7 \/ r = 8 \/ r = 9) by lia.
  repeat (destruct Hcases as [-> | Hcases]; [reflexivity |]).
  subst r. reflexivity.
Qed.

Lemma digits_fuel_digits (fuel : nat) :
  forall n acc, all_chars JS.is_digit acc = true ->
    all_chars JS.is_digit (Num.digits_fuel fuel n acc) = true.
Proof.
  induction fuel as [| fuel IH]; intros n acc Hacc; [exact Hacc |].
  cbn [Num.digits_fuel].
  assert (Hacc' : all_chars JS.is_digit
            (String (ascii_of_nat (Z.to_nat (48 + n mod 10))) acc) = true).
  { cbn [all_chars]. rewrite digit_char, Hacc. reflexivity. }
  destruct (n <? 10); [exact Hacc' | apply IH, Hacc'].
Qed.

Lemma string_of_Z_digits (n : Z) :
  all_chars JS.is_digit (Num.string_of_Z n) = true.
Proof. unfold Num.string_of_Z. apply digits_fuel_digits. reflexivity. Qed.

Lemma digit_number_char (a : ascii) :
  JS.is_digit a = true -> number_char a = true.
Proof. unfold number_char. intros ->. reflexivity. Qed.

Lemma string_of_Z_number (n : Z) :
  all_chars number_char (Num.string_of_Z n) = true.
Proof.
  apply (all_chars_weaken JS.is_digit); [apply digit_number_char |].
  apply string_of_Z_digits.
Qed.

Lemma toString_large_number (x : float) :
  all_chars number_char (Num.toString_large x) = true.
Proof.
  unfold Num.toString_large.
  destruct (Num.exact x) as [m e].
  destruct (Num.shortest _ _ _ _ _) as [s0 e0].
  destruct (Num.strip_zeros _ _ _) as [s e10].
  pose proof (string_of_Z_number s) as Hs.
  destruct (Num.string_of_Z s) as [| d rest]; [reflexivity |].
  cbn [all_chars] in Hs. apply andb_true_iff in Hs as [Hd Hrest].
  destruct rest as [| d' rest'].
  - cbn [all_chars]. rewrite Hd, all_chars_app, string_of_Z_number. reflexivity.
  - cbn [all_chars]. rewrite Hd, !all_chars_app, Hrest, string_of_Z_number.
    reflexivity.
Qed.

(** What [toFixed(2)] prints is made of the characters of a number. *)
Lemma toFixed2_number (x : float) :
  all_chars number_char (Num.toFixed2 x) = true.
Proof.
  unfold Num.toFixed2.
  destruct (PrimFloat.is_nan x); [reflexivity |].
  destruct (PrimFloat.is_infinity x);
    [destruct (PrimFloat.ltb x PrimFloat.zero); reflexivity |].
  assert (Hsign : all_chars number_char
            (if PrimFloat.ltb x PrimFloat.zero then "-" else "") = true)
    by (destruct (PrimFloat.ltb x PrimFloat.zero); reflexivity).
  destruct (PrimFloat.leb _ _).
  - rewrite all_chars_app, Hsign, toString_large_number. reflexivity.
  - destruct (Num.exact _) as [m e]. destruct (Num.scaled _ _ _) as [num den].
    set (n := (2 * num + den) / (2 * den)).
    set (ds := if Nat.leb (String.length (Num.string_of_Z n)) 2
               then JS.drop (String.length (Num.string_of_Z n)) "000"
                    ++ Num.string_of_Z n
               else Num.string_of_Z n).
    assert (Hds : all_chars number_char ds = true).
    { unfold ds. destruct (Nat.leb _ 2); [| apply string_of_Z_number].
      rewrite all_chars_app, string_of_Z_number, andb_true_r.
      apply all_chars_drop. reflexivity. }
    rewrite !all_chars_app, Hsign, all_chars_take, all_chars_drop by exact Hds.
    reflexivity.
Qed.

Lemma alerts_key_parts (st st' a a' b b' : string) :
  free_of ":" a = true -> free_of ":" a' = true ->
  free_of "," b = true -> free_of "," b' = true ->
  "alerts:" ++ st ++ ":" ++ a ++ "," ++ b ++ ":" ++ JS.join "|" ALERT_ATOM_URLS =
  "alerts:" ++ st' ++ ":" ++ a' ++ "," ++ b' ++ ":" ++ JS.join "|" ALERT_ATOM_URLS ->
  st = st' /\ a = a' /\ b = b'.
Proof.
  intros Ha Ha' Hb Hb' H.
  apply append_inj_l in H.
  set (T := ":" ++ JS.join "|" ALERT_ATOM_URLS) in H.
  assert (H1 : (st ++ ":" ++ a ++ "," ++ b) ++ T =
               (st' ++ ":" ++ a' ++ "," ++ b') ++ T).
  { rewrite !append_assoc. exact H. }
  apply append_inj_r in H1.
  assert (H2 : (st ++ ":" ++ a) ++ String "," b =
               (st' ++ ":" ++ a') ++ String "," b').
  { rewrite !append_assoc. exact H1. }
  apply last_sep_inj in H2 as [H2 ->]; [| exact Hb | exact Hb'].
  apply (last_sep_inj ":") in H2 as [-> ->]; [| exact Ha | exact Ha'].
  repeat split.
Qed.

(** X9. The cache key of an alerts request determines the state and the
    two coordinates as printed with two decimals: requests that differ in
    one of the three never share an entry.  An alerts key never starts
    with [air:], the mark of the air-quality keys. *)
Theorem alerts_key_injective (st st' : string) (lat lon lat' lon' : float) :
  (alerts_key st lat lon = alerts_key st' lat' lon' ->
   st = st' /\ Num.toFixed2 lat = Num.toFixed2 lat' /\
   Num.toFixed2 lon = Num.toFixed2 lon') /\
  JS.startsWith (alerts_key st lat lon) "air:" = false.
Proof.
  split; [| reflexivity].
  unfold alerts_key. apply alerts_key_parts;
    apply (all_chars_free number_char); try reflexivity; apply toFixed2_number.
Qed.

Lemma alerts_key_injective_witness :
  "GA" = "GA" /\
  Num.toFixed2 (Num.literal "33.751") = Num.toFixed2 (Num.literal "33.749") /\
  Num.toFixed2 (Num.literal "-84.39") = Num.toFixed2 (Num.literal "-84.388").
Proof.
  apply (proj1 (alerts_key_injective "GA" "GA" _ _ _ _)).
  vm_compute. reflexivity.
Defined.

(** ** Ray casting *)

Lemma pip_loop_xor (lat lon : float) (l : list point) :
  forall pj b,
    pip_loop lat lon pj l b = xorb b (pip_loop lat lon pj l false).
Proof.
  induction l as [| p l IH]; intros pj b; cbn [pip_loop].
  - rewrite xorb_false_r. reflexivity.
  - rewrite IH, (IH p (if intersect lat lon p pj then negb false else false)).
    destruct (intersect lat lon p pj), b, (pip_loop lat lon p l false);
      reflexivity.
Qed.

Lemma last_cons_default {A : Type} (l : list A) :
  forall x d, List.last (x :: l) d = List.last l x.
Proof.
  induction l as [| y l IH]; intros x d; [reflexivity |].
  change (List.last (x :: y :: l) d) with (List.last (y :: l) d).
  rewrite (IH y d), (IH y x). reflexivity.
Qed.

Lemma pip_loop_snoc (lat lon : float) (l : list point) :
  forall pj p b,
    pip_loop lat lon pj (l ++ [p])%list b =
    xorb (intersect lat lon p (List.last l pj)) (pip_loop lat lon pj l b).
Proof.
  induction l as [| q l IH]; intros pj p b.
  - cbn [app pip_loop List.last].
    destruct (intersect lat lon p pj), b; reflexivity.
  - cbn [app pip_loop]. rewrite IH, last_cons_default. reflexivity.
Qed.

Lemma pip_rotate (lat lon : float) (v : point) (rest : list point) (d : point) :
  pip_loop lat lon (List.last (rest ++ [v])%list d) (rest ++ [v])%list false =
  pip_loop lat lon (List.last (v :: rest) d) (v :: rest) false.
Proof.
  rewrite List.last_last, pip_loop_snoc, last_cons_default.
  cbn [pip_loop].
  destruct (intersect lat lon v (List.last rest v)); cbn [negb xorb];
    [rewrite (pip_loop_xor lat lon rest v true) |]; reflexivity.
Qed.

(** X10. The answer of [pointInPolygon] does not depend on the vertex the
    ring starts with: moving the first vertex to the end gives the same
    answer. *)
Theorem pointInPolygon_rotate (lat lon : float) (v : point)
    (rest : list point) :
  pointInPolygon lat lon (Some (rest ++ [v])%list) =
  pointInPolygon lat lon (Some (v :: rest)).
Proof.
  unfold pointInPolygon. rewrite length_app, Nat.add_comm. cbn [length Nat.add].
  destruct (Nat.ltb (S (length rest)) 3); [reflexivity | apply pip_rotate].
Qed.

Lemma intersect_same_vertex (lat lon : float) (v : point) :
  intersect lat lon v v = false.
Proof. unfold intersect. rewrite eqb_reflx. reflexivity. Qed.

(** X11. A ring of at least 3 vertices that is closed by repeating its
    first vertex at the end, as the polygons of the feeds are, gets the
    same answer as the open ring. *)
Theorem pointInPolygon_closed_ring (lat lon : float) (v : point)
    (rest : list point) :
  (3 <= length (v :: rest))%nat ->
  pointInPolygon lat lon (Some ((v :: rest) ++ [v])%list) =
  pointInPolygon lat lon (Some (v :: rest)).
Proof.
  intros Hlen. unfold pointInPolygon.
  rewrite length_app. simpl length in *.
  destruct (Nat.ltb_spec (S (length rest) + 1) 3) as [Hlt | _]; [lia |].
  destruct (Nat.ltb_spec (S (length rest)) 3) as [Hlt | _]; [lia |].
  rewrite List.last_last. cbn [app pip_loop].
  rewrite intersect_same_vertex.
  pose proof (pip_rotate lat lon v rest v) as Hrot.
  rewrite List.last_last in Hrot. rewrite Hrot.
  rewrite !last_cons_default. reflexivity.
Qed.

Lemma pointInPolygon_closed_ring_witness :
  pointInPolygon 5 5 (Some (square ++ [(0, 0)%float])%list) =
  pointInPolygon 5 5 (Some square).
Proof.
  apply (pointInPolygon_closed_ring 5 5 (0, 0)%float
           [(0, 10); (10, 10); (10, 0)]%float).
  simpl. lia.
Defined.

Lemma pip_loop_one_side (lat lon : float) (side : bool) (l : list point) :
  forall pj,
    gt (fst pj) lat = side ->
    (forall p, In p l -> gt (fst p) lat = side) ->
    pip_loop lat lon pj l false = false.
Proof.
  induction l as [| p l IH]; intros pj Hpj Hl; [reflexivity |].
  cbn [pip_loop].
  assert (Hp : gt (fst p) lat = side) by (apply Hl; left; reflexivity).
  unfold intersect at 1. rewrite Hp, Hpj, eqb_reflx. cbn [negb andb].
  apply IH; [exact Hp |]. intros p' Hp'. apply Hl. right. exact Hp'.
Qed.

Lemma last_In {A : Type} (l : list A) (d : A) :
  l <> [] -> In (List.last l d) l.
Proof.
  induction l as [| x l IH]; [congruence |]. intros _.
  destruct l as [| y l]; [left; reflexivity |].
  right. apply IH. discriminate.
Qed.

(** X12. A query point that has every vertex strictly to its north, or no
    vertex strictly to its north, is outside: the ray meets no edge
    whose ends lie on the same side. *)
Theorem pointInPolygon_outside_span (lat lon : float) (side : bool)
    (l : list point) :
  (forall p, In p l -> gt (fst p) lat = side) ->
  pointInPolygon lat lon (Some l) = false.
Proof.
  intros Hl. unfold pointInPolygon.
  destruct (Nat.ltb (length l) 3) eqn:Hlen; [reflexivity |].
  apply (pip_loop_one_side lat lon side); [| exact Hl].
  apply Hl, last_In. intros ->. discriminate Hlen.
Qed.

Lemma pointInPolygon_outside_span_witness :
  pointInPolygon 20 5 (Some square) = false.
Proof.
  apply (pointInPolygon_outside_span 20 5 false).
  intros p Hp. simpl in Hp.
  repeat (destruct Hp as [<- | Hp]; [vm_compute; reflexivity |]).
  contradiction.
Defined.

(** ** What the parser delivers *)

Lemma trimStart_head_fixed (s : string) :
  head_nonspace s = true -> JS.trimStart s = s.
Proof.
  destruct s as [| a s]; [reflexivity |]. cbn [head_nonspace JS.trimStart].
  destruct (JS.is_space a); [discriminate | reflexivity].
Qed.

Lemma trim_idempotent (s : string) : JS.trim (JS.trim s) = JS.trim s.
Proof.
  unfold JS.trim.
  rewrite (trimStart_head_fixed (JS.trimEnd (JS.trimStart s)))
    by apply trimEnd_head, trimStart_head.
  apply trimEnd_idem.
Qed.

Lemma get_trimmed (b tag t : string) :
  get b tag = Some t -> JS.trim t = t.
Proof.
  unfold get. destruct (Re.find (tag_re tag) b); [| discriminate].
  intros H. injection H as <-. apply trim_idempotent.
Qed.

Lemma updated_of_cases (b : string) :
  updated_of b = None \/
  exists a t, updated_of b = Some (String a t) /\
              (get b "updated" = Some (String a t) \/
               get b "sent" = Some (String a t)).
Proof.
  unfold updated_of.
  destruct (get b "updated") as [[| a t] |]; cbn [JS.truthy].
  - destruct (get b "sent") as [[| a t] |]; cbn [JS.truthy];
      [left; reflexivity | right; exists a, t; split; [| right]; reflexivity
       | left; reflexivity].
  - right. exists a, t. split; [| left]; reflexivity.
  - destruct (get b "sent") as [[| a t] |]; cbn [JS.truthy];
      [left; reflexivity | right; exists a, t; split; [| right]; reflexivity
       | left; reflexivity].
Qed.

(** X13. Every text field that [parseAtom] fills in with [get] ([id],
    [title], [summary], [updated], [effective], [expires], [areaDesc],
    [severity], [event]) is either null or a text without white space at
    either end, and [updated] is never the empty text: it is the
    non-empty [updated] of the block, else its non-empty [sent], else
    null. *)
Theorem parseEntry_fields_trimmed (b : string) :
  (forall t, In (Some t) (scalar_fields (parseEntry b)) -> JS.trim t = t) /\
  updated (parseEntry b) <> Some "" /\
  (JS.truthy (get b "updated") = true ->
     updated (parseEntry b) = get b "updated") /\
  (JS.truthy (get b "updated") = false ->
     updated (parseEntry b) = if JS.truthy (get b "sent") then get b "sent"
                              else None).
Proof.
  split; [| split; [| split]].
  - intros t Ht. unfold scalar_fields, parseEntry in Ht.
    cbn [id title summary updated effective expires areaDesc severity event In]
      in Ht.
    destruct Ht as [H | [H | [H | [H | [H | [H | [H | [H | [H | []]]]]]]]]];
      try (apply (get_trimmed b _ t H)).
    destruct (updated_of_cases b) as [Hn | (a & t' & Hu & [Hg | Hg])];
      rewrite H in *; try discriminate;
      injection Hu as ->; apply (get_trimmed b _ _ Hg).
  - cbn [parseEntry updated].
    destruct (updated_of_cases b) as [-> | (a & t' & -> & _)]; discriminate.
  - intros Ht. cbn [parseEntry updated]. unfold updated_of. rewrite Ht.
    reflexivity.
  - intros Ht. cbn [parseEntry updated]. unfold updated_of. rewrite Ht.
    reflexivity.
Qed.

Lemma parseEntry_fields_trimmed_witness :
  JS.trim "Flash Flood Warning" = "Flash Flood Warning".
Proof.
  apply (proj1 (parseEntry_fields_trimmed padded_entry)).
  vm_compute. right. left. reflexivity.
Defined.

Lemma upper_char_idempotent (a : ascii) :
  JS.upper_char (JS.upper_char a) = JS.upper_char a.
Proof. destruct a as [[] [] [] [] [] [] [] []]; reflexivity. Qed.

Lemma lower_char_idempotent (a : ascii) :
  JS.lower_char (JS.lower_char a) = JS.lower_char a.
Proof. destruct a as [[] [] [] [] [] [] [] []]; reflexivity. Qed.

Lemma map_chars_idempotent (f : ascii -> ascii) (s : string) :
  (forall a, f (f a) = f a) ->
  JS.map_chars f (JS.map_chars f s) = JS.map_chars f s.
Proof.
  intros Hf. induction s as [| a s IH]; [reflexivity |].
  cbn [JS.map_chars]. rewrite Hf, IH. reflexivity.
Qed.

Lemma toUpperCase_idempotent (s : string) :
  JS.toUpperCase (JS.toUpperCase s) = JS.toUpperCase s.
Proof. apply map_chars_idempotent, upper_char_idempotent. Qed.

Lemma toLowerCase_idempotent (s : string) :
  JS.toLowerCase (JS.toLowerCase s) = JS.toLowerCase s.
Proof. apply map_chars_idempotent, lower_char_idempotent. Qed.

Lemma segment_codes_In (norm : string -> string) (seg c : string) :
  In c (segment_codes norm seg) ->
  c <> "" /\ exists piece, c = norm (JS.trim piece).
Proof.
  unfold segment_codes. intros H.
  apply List.in_concat in H as (l & Hl & Hc).
  apply List.in_map_iff in Hl as (v & <- & _).
  apply List.filter_In in Hc as [Hc Ht].
  apply List.in_map_iff in Hc as (piece & <- & _).
  split; [| exists piece; reflexivity].
  intros Hnil. rewrite Hnil in Ht. discriminate.
Qed.

Lemma geocode_values_In (name : string) (norm : string -> string)
    (g c : string) :
  In c (geocode_values name norm g) ->
  c <> "" /\ exists piece, c = norm (JS.trim piece).
Proof.
  unfold geocode_values.
  destruct (0 <=? Re.search (valueName_of_re name) g); [| contradiction].
  apply segment_codes_In.
Qed.

(** X14. No geographic code of a parsed entry is empty; every UGC code is
    in upper case, and every FIPS6 code is free of white space at either
    end. *)
Theorem parseEntry_codes (b c : string) :
  (In c (ugc (parseEntry b)) -> c <> "" /\ JS.toUpperCase c = c) /\
  (In c (fips6 (parseEntry b)) -> c <> "" /\ JS.trim c = c).
Proof.
  cbn [parseEntry ugc fips6]. split; intros H;
    apply List.in_concat in H as (l & Hl & Hc);
    apply List.in_map_iff in Hl as (g & <- & _);
    apply geocode_values_In in Hc as [Hne (piece & ->)];
    (split; [exact Hne |]).
  - apply toUpperCase_idempotent.
  - apply trim_idempotent.
Qed.

Lemma parseEntry_codes_witness :
  "GAZ002" <> "" /\ JS.toUpperCase "GAZ002" = "GAZ002".
Proof.
  apply (proj1 (parseEntry_codes padded_entry "GAZ002")).
  vm_compute. right. left. reflexivity.
Defined.

Lemma exec_entry_none (s : string) :
  starts_i s "<entry" = false -> Re.exec_at entry_re s = None.
Proof.
  intros H. unfold Re.exec_at, entry_re. cbn [Re.seq Re.run].
  rewrite run_lit_i, H. reflexivity.
Qed.

Lemma find_entry_none (s : string) :
  forall i, includes_i s "<entry" = false -> Re.find_from entry_re s i = None.
Proof.
  induction s as [| a s IH]; intros i H; cbn [includes_i] in H;
    apply orb_false_iff in H as [Hs Ht]; cbn [Re.find_from];
    rewrite (exec_entry_none _ Hs); [reflexivity | apply IH, Ht].
Qed.

Lemma parseAtom_no_entry (xml : string) :
  includes_i xml "<entry" = false -> parseAtom xml = [].
Proof.
  intros H. unfold parseAtom, Re.match_g, Re.matchAll.
  cbn [Re.matches_fuel]. unfold Re.find. rewrite (find_entry_none _ _ H).
  reflexivity.
Qed.

(** X15. A feed document without any [<entry] tag (in any letter case)
    parses to no entry, and when every document is such, the aggregator
    answers with an empty result, all counts 0, not with an error. *)
Theorem empty_feeds_empty_result st lat lon iso n xmls :
  (forall xml, In xml xmls -> includes_i xml "<entry" = false) ->
  (forall xml, In xml xmls -> parseAtom xml = []) /\
  let r := aggregate st lat lon iso n xmls in
  items r = [] /\ count r = 0%nat /\ fetched (debug r) = 0%nat /\
  afterState (debug r) = 0%nat /\ afterPoly (debug r) = 0%nat.
Proof.
  intros Hall.
  assert (Hparse : forall xml, In xml xmls -> parseAtom xml = [])
    by (intros xml Hx; apply parseAtom_no_entry, Hall, Hx).
  split; [exact Hparse |].
  assert (Hmerged : List.concat (List.map parseAtom xmls) = []).
  { clear Hall. induction xmls as [| x xmls IH]; [reflexivity |].
    cbn [List.map List.concat]. rewrite (Hparse x (or_introl eq_refl)), IH.
    - reflexivity.
    - intros y Hy. apply Hparse. right. exact Hy. }
  unfold aggregate. rewrite Hmerged.
  change (dedupe []) with (@nil AlertEntry).
  unfold state_filter.
  destruct (JS.truthy (Some st) && negb (String.eqb st "ALL"));
    cbn; repeat split; reflexivity.
Qed.

Lemma empty_feeds_empty_result_witness :
  count (aggregate "GA" 5 5 "2026-01-01T00:00:00.000Z" 3
           ["<feed></feed>"; ""; "<feed><title>none</title></feed>"]) = 0%nat.
Proof.
  apply (proj2 (empty_feeds_empty_result "GA" 5 5 "2026-01-01T00:00:00.000Z" 3
                  ["<feed></feed>"; ""; "<feed><title>none</title></feed>"]
                  ltac:(intros xml Hx; simpl in Hx;
                        repeat (destruct Hx as [<- | Hx]; [reflexivity |]);
                        contradiction))).
Defined.



(** ** Query normalisation *)

Lemma req_state_with_state (q : Query) (s : option JS.qvalue) :
  req_state (with_state q s) =
  JS.toUpperCase (JS.to_String (JS.q_or s (JS.QString "GA"))).
Proof. reflexivity. Qed.

Lemma alerts_handler_by_state (w : World) (q : Query) (cache : Cache)
    (s s' : option JS.qvalue) :
  JS.toUpperCase (JS.to_String (JS.q_or s (JS.QString "GA"))) =
  JS.toUpperCase (JS.to_String (JS.q_or s' (JS.QString "GA"))) ->
  alerts_handler w (with_state q s) cache =
  alerts_handler w (with_state q s') cache.
Proof.
  intros H. unfold alerts_handler, req_nocache.
  rewrite !req_state_with_state, H. reflexivity.
Qed.

Lemma state_filter_empty_state (all : list AlertEntry) :
  state_filter "" all = (all, length all).
Proof. reflexivity. Qed.

(** X17. A state given as a string is read without regard to letter
    case, and a missing or empty state is [GA]: the handler answers the
    same and leaves the same cache for [s] and for the upper-case form of
    [s], and for no state, the empty state and [GA].  With a string or
    no state at all the state the handler works with is never empty.  A
    state given as an array prints as its elements joined with commas:
    for [?state[]=], the array of the empty string, the state is the
    empty text, and the state step is then skipped as for [ALL]. *)
Theorem alerts_state_normalised (w : World) (q : Query) (cache : Cache)
    (s : string) :
  alerts_handler w (with_state q (Some (JS.QString s))) cache =
    alerts_handler w (with_state q (Some (JS.QString (JS.toUpperCase s)))) cache /\
  alerts_handler w (with_state q None) cache =
    alerts_handler w (with_state q (Some (JS.QString "GA"))) cache /\
  alerts_handler w (with_state q (Some (JS.QString ""))) cache =
    alerts_handler w (with_state q (Some (JS.QString "GA"))) cache /\
  (q_state q = None \/ (exists s', q_state q = Some (JS.QString s')) ->
     req_state q <> "") /\
  req_state (with_state q (Some (JS.QArray [JS.QString ""]))) = "" /\
  req_state (with_state q (Some (JS.QArray []))) = "" /\
  (req_state q = "" ->
     forall all, state_filter (req_state q) all = (all, length all)).
Proof.
  split; [| split; [| split; [| split; [| split; [| split]]]]].
  - apply alerts_handler_by_state. destruct s as [| a s']; [reflexivity |].
    change (JS.to_String (JS.q_or (Some (JS.QString (JS.toUpperCase (String a s'))))
                            (JS.QString "GA")))
      with (JS.toUpperCase (String a s')).
    change (JS.to_String (JS.q_or (Some (JS.QString (String a s')))
                            (JS.QString "GA")))
      with (String a s').
    symmetry. apply toUpperCase_idempotent.
  - apply alerts_handler_by_state. reflexivity.
  - apply alerts_handler_by_state. reflexivity.
  - unfold req_state. intros [-> | [s' ->]]; [discriminate |].
    destruct s' as [| a s']; discriminate.
  - reflexivity.
  - reflexivity.
  - intros -> all. apply state_filter_empty_state.
Qed.

Lemma alerts_state_normalised_witness :
  req_state (with_state query_plain (Some (JS.QString "ga"))) <> "" /\
  state_filter
    (req_state (with_state query_plain (Some (JS.QArray [JS.QString ""]))))
    five = (five, 5%nat).
Proof.
  split.
  - apply (proj1 (proj2 (proj2 (proj2
             (alerts_state_normalised (world_at 0 "")
                (with_state query_plain (Some (JS.QString "ga"))) ∅ ""))))).
    right. exists "ga". reflexivity.
  - apply (proj2 (proj2 (proj2 (proj2 (proj2 (proj2
             (alerts_state_normalised (world_at 0 "")
                (with_state query_plain (Some (JS.QArray [JS.QString ""])))
                ∅ ""))))))).
    reflexivity.
Defined.

(** X18. The units the weather handler hands to the provider are in
    lower case and never [imperial]; the provider labels temperatures in
    degrees Fahrenheit and speeds in mph exactly when the query asked for
    [us] or [imperial] in any letter case, or for nothing (the default is
    [us]), and in degrees Celsius and km/h otherwise. *)
Theorem units_of_request (units : option string) :
  resolveUnits units <> "imperial" /\
  JS.toLowerCase (resolveUnits units) = resolveUnits units /\
  (let u := JS.toLowerCase (JS.or_else units DEFAULT_UNITS) in
   unitsFor (resolveUnits units) =
   if String.eqb u "us" || String.eqb u "imperial"
   then {| temp := String degree "F"; speed := "mph" |}
   else {| temp := String degree "C"; speed := "km/h" |}) /\
  resolveUnits None = "us".
Proof.
  unfold resolveUnits.
  set (u := JS.toLowerCase (JS.or_else units DEFAULT_UNITS)).
  split; [| split; [| split; [| reflexivity]]].
  - destruct (String.eqb_spec u "imperial") as [_ | Hne]; [discriminate | exact Hne].
  - destruct (String.eqb u "imperial"); [reflexivity |].
    unfold u. apply toLowerCase_idempotent.
  - cbv zeta. destruct (String.eqb_spec u "imperial") as [-> | Hne].
    + reflexivity.
    + unfold unitsFor. apply String.eqb_neq in Hne. rewrite Hne.
      destruct (String.eqb u "us"); [reflexivity |].
      destruct (String.eqb u "metric"); reflexivity.
Qed.

(** ** The state step keeps what matches *)

(** X19. The state step never drops an entry that matches the state: an
    entry of the deduplicated list with a UGC code that starts with the
    state code, or that matches in another way, is in the working list
    after the step, whether the fallback applied or not. *)
Theorem state_step_keeps_matches (st : string) (all : list AlertEntry)
    (i : AlertEntry) :
  In i all ->
  (state_match st i = true \/
   exists code, In code (ugc i) /\ JS.startsWith code st = true) ->
  In i (fst (state_filter st all)).
Proof.
  intros Hin Hmatch.
  assert (Hm : state_match st i = true).
  { destruct Hmatch as [H | (code & Hc & Hs)]; [exact H |].
    unfold state_match.
    replace (existsb (fun code0 => JS.startsWith code0 st) (ugc i)) with true;
      [reflexivity |].
    symmetry. apply existsb_exists. exists code. split; assumption. }
  destruct (state_filter_cases st all) as [-> | [-> _]]; [exact Hin |].
  apply List.filter_In. split; assumption.
Qed.

Lemma state_step_keeps_matches_witness :
  In (parseEntry padded_entry)
     (fst (state_filter "GA" (five ++ [parseEntry padded_entry])%list)).
Proof.
  apply state_step_keeps_matches.
  - apply List.in_or_app. right. left. reflexivity.
  - right. exists "GAZ001". split; [vm_compute; left; reflexivity | reflexivity].
Defined.

(** ** Air-quality categories *)

Lemma SFleb_trans (f1 f2 f3 : spec_float) :
  SFleb f1 f2 = true -> SFleb f2 f3 = true -> SFleb f1 f3 = true.
Proof.
  unfold SFleb.
  destruct f1 as [s1 | s1 | | s1 m1 e1], f2 as [s2 | s2 | | s2 m2 e2],
           f3 as [s3 | s3 | | s3 m3 e3];
    try destruct s1; try destruct s2; try destruct s3;
    cbn; try reflexivity; try discriminate.
  all: change (PosDef.Pos.compare_cont Eq) with Pos.compare.
  all: destruct (Z.compare_spec e1 e2); destruct (Z.compare_spec e2 e3);
       destruct (Z.compare_spec e1 e3); try lia; try reflexivity;
       try discriminate.
  all: subst.
  all: destruct (Pos.compare_spec m1 m2); destruct (Pos.compare_spec m2 m3);
       destruct (Pos.compare_spec m1 m3); cbn; try lia; try reflexivity;
       try discriminate.
Qed.

Lemma leb_trans (a b c : float) :
  PrimFloat.leb a b = true -> PrimFloat.leb b c = true ->
  PrimFloat.leb a c = true.
Proof. rewrite !FloatAxioms.leb_spec. apply SFleb_trans. Qed.

Lemma SFcompare_refl (f : spec_float) :
  f <> S754_nan -> SFcompare f f = Some Eq.
Proof.
  destruct f as [s | s | | s m e]; intros Hn; try congruence; cbn.
  - reflexivity.
  - destruct s; reflexivity.
  - rewrite Z.compare_refl.
    change (PosDef.Pos.compare_cont Eq m m) with (Pos.compare m m).
    rewrite Pos.compare_refl. destruct s; reflexivity.
Qed.

Lemma nan_leb (a t : float) :
  PrimFloat.is_nan a = true -> PrimFloat.leb a t = false.
Proof.
  unfold PrimFloat.is_nan.
  rewrite FloatAxioms.eqb_spec, FloatAxioms.leb_spec. unfold SFeqb, SFleb.
  intros H. destruct (Prim2SF a) eqn:Ha; try reflexivity;
    rewrite SFcompare_refl in H by discriminate; discriminate.
Qed.

(** X20. The air-quality category never gets milder as the index grows:
    for two indices [a <= b] the category of [a] is at most that of [b]
    on the scale Good, Moderate, USG, Unhealthy, Very Unhealthy,
    Hazardous.  Every number gets a category of the scale, [NaN] the
    last one; the category is Unknown exactly when there is no index,
    as when the hourly series is missing, empty or starts with null. *)
Theorem aqiCategory_monotone (a b : float) :
  (PrimFloat.leb a b = true ->
   exists la lb, level (aqiCategory (Some a)) = Some la /\
                 level (aqiCategory (Some b)) = Some lb /\ (la <= lb)%nat) /\
  (PrimFloat.is_nan a = true -> label (aqiCategory (Some a)) = "Hazardous") /\
  (forall x, label (aqiCategory x) = "Unknown" <-> x = None) /\
  aqiCategory (current_aqi None) = aqiCategory None /\
  aqiCategory (current_aqi (Some [])) = aqiCategory None /\
  (forall rest, aqiCategory (current_aqi (Some (None :: rest))) = aqiCategory None).
Proof.
  split; [| split; [| split; [| repeat split]]].
  - intros Hab.
    assert (Ht : forall t, PrimFloat.leb b t = true -> PrimFloat.leb a t = true)
      by (intros t Hb; exact (leb_trans a b t Hab Hb)).
    unfold aqiCategory.
    destruct (PrimFloat.leb b 50) eqn:B1; [rewrite (Ht _ B1) |];
      [eexists _, _; repeat split; cbn; lia |].
    destruct (PrimFloat.leb b 100) eqn:B2;
      [destruct (PrimFloat.leb a 50); rewrite ?(Ht _ B2);
       eexists _, _; repeat split; cbn; lia |].
    destruct (PrimFloat.leb b 150) eqn:B3;
      [destruct (PrimFloat.leb a 50); [| destruct (PrimFloat.leb a 100)];
       rewrite ?(Ht _ B3); eexists _, _; repeat split; cbn; lia |].
    destruct (PrimFloat.leb b 200) eqn:B4;
      [destruct (PrimFloat.leb a 50);
       [| destruct (PrimFloat.leb a 100); [| destruct (PrimFloat.leb a 150)]];
       rewrite ?(Ht _ B4); eexists _, _; repeat split; cbn; lia |].
    destruct (PrimFloat.leb b 300) eqn:B5;
      [destruct (PrimFloat.leb a 50);
       [| destruct (PrimFloat.leb a 100);
          [| destruct (PrimFloat.leb a 150); [| destruct (PrimFloat.leb a 200)]]];
       rewrite ?(Ht _ B5); eexists _, _; repeat split; cbn; lia |].
    destruct (PrimFloat.leb a 50);
      [| destruct (PrimFloat.leb a 100);
         [| destruct (PrimFloat.leb a 150);
            [| destruct (PrimFloat.leb a 200);
               [| destruct (PrimFloat.leb a 300)]]]];
      eexists _, _; repeat split; cbn; lia.
  - intros Hnan. unfold aqiCategory. rewrite !(nan_leb a _ Hnan). reflexivity.
  - intros [x |]; [| split; reflexivity].
    split; [| discriminate]. unfold aqiCategory.
    repeat (destruct (PrimFloat.leb x _); [discriminate |]). discriminate.
Qed.

Lemma aqiCategory_monotone_witness :
  exists la lb, level (aqiCategory (Some 42%float)) = Some la /\
                level (aqiCategory (Some 120%float)) = Some lb /\ (la <= lb)%nat.
Proof.
  apply (proj1 (aqiCategory_monotone 42 120)). reflexivity.
Defined.
